(** * shadow-cinema-search: the tag browsing dialog and the theme tokens

    A shallow embedding of [src/components/TagsDialog.tsx] and of the two
    custom-property blocks of [src/index.css].

    - [JSString]: ECMAScript strings as sequences of UTF-16 code units, with
      the four [String.prototype] methods the component calls
      ([trim], [toLowerCase], [includes], [replace]);
    - [Theme]: the [:root] and [.dark] declaration blocks;
    - [TagsDialog]: the component's five [useState] cells, its two effects,
      its click handler and what it renders, written in a small state and
      exception monad, and a step function for the events it reacts to.

    The second half of the file states and proves the properties. *)

From Stdlib Require Import String Ascii.
From Stdlib Require Import List NArith Bool Arith Lia Sorted.
From Stdlib Require DecimalNat.
Import ListNotations.

(* ===================================================================== *)
(** * Part I: definitions                                                 *)
(* ===================================================================== *)

Module JSString.

(** A string value is a finite sequence of 16-bit code units. *)
Definition codeUnit := N.
Definition jsstring := list codeUnit.

(** Source literals are ASCII; [lit] reads one as code units. *)
Definition lit (s : string) : jsstring :=
  map N_of_ascii (list_ascii_of_string s).

Definition unit_eqb (a b : codeUnit) : bool := N.eqb a b.

(** [===] on two strings: same length and same code units. *)
Fixpoint strictEq (a b : jsstring) : bool :=
  match a, b with
  | [], [] => true
  | x :: a', y :: b' => unit_eqb x y && strictEq a' b'
  | _, _ => false
  end.

(** ECMAScript WhiteSpace and LineTerminator code points, the ones
    [String.prototype.trim] removes: TAB, LF, VT, FF, CR, SP, NBSP,
    U+1680, U+2000..U+200A, U+2028, U+2029, U+202F, U+205F, U+3000 and
    U+FEFF. *)
Definition isWhiteSpace (c : codeUnit) : bool :=
  ((9 <=? c) && (c <=? 13) || (c =? 32) || (c =? 160) || (c =? 5760)
   || (8192 <=? c) && (c <=? 8202) || (c =? 8232) || (c =? 8233)
   || (c =? 8239) || (c =? 8287) || (c =? 12288) || (c =? 65279))%N.

Fixpoint trimStart (s : jsstring) : jsstring :=
  match s with
  | [] => []
  | c :: rest => if isWhiteSpace c then trimStart rest else s
  end.

Definition trimEnd (s : jsstring) : jsstring := rev (trimStart (rev s)).

(** [s.trim()] *)
Definition trim (s : jsstring) : jsstring := trimEnd (trimStart s).

(** Does [pat] occur in [s] at position 0? *)
Fixpoint matchesAt0 (s pat : jsstring) {struct pat} : bool :=
  match pat, s with
  | [], _ => true
  | p :: pat', c :: s' => unit_eqb c p && matchesAt0 s' pat'
  | _ :: _, [] => false
  end.

(** The abstract operation StringIndexOf(s, pat, 0), shifted by [i]: the
    least position at which [pat] occurs, scanning upwards. *)
Fixpoint indexOfFrom (i : nat) (s pat : jsstring) : option nat :=
  if matchesAt0 s pat then Some i
  else match s with
       | [] => None
       | _ :: s' => indexOfFrom (S i) s' pat
       end.

(** [s.indexOf(pat)], with [None] for -1. *)
Definition indexOf (s pat : jsstring) : option nat := indexOfFrom 0 s pat.

(** [s.includes(pat)] *)
Definition includes (s pat : jsstring) : bool :=
  match indexOf s pat with Some _ => true | None => false end.

(** [s.startsWith(pat)] *)
Definition startsWith (s pat : jsstring) : bool := matchesAt0 s pat.

(** [s.replace(pat, repl)] for a string pattern: only the first occurrence
    is replaced, and a string without one is returned as it is. The
    replacement is taken literally, which is what ECMAScript does for a
    replacement without a dollar sign; the one call in the component
    passes the empty string. *)
Definition replace (s pat repl : jsstring) : jsstring :=
  match indexOf s pat with
  | None => s
  | Some pos => firstn pos s ++ repl ++ skipn (pos + length pat) s
  end.

(** Lower-casing of the ASCII range: A..Z go to a..z. *)
Definition isAscii (c : codeUnit) : bool := (c <? 128)%N.
Definition asciiLower (c : codeUnit) : codeUnit :=
  if ((65 <=? c) && (c <=? 90))%N then (c + 32)%N else c.

(** [s.toLowerCase()] applies the Unicode case mapping, tables this
    development does not contain. It is kept abstract: the properties below
    hold for every function that maps strings to strings and does to ASCII
    strings what the Unicode mapping does to them. *)
Class CaseMapping := {
  toLowerCase : jsstring -> jsstring;
  toLowerCase_ascii :
    forall s, forallb isAscii s = true -> toLowerCase s = map asciiLower s
}.

(** [s] contains [pat] as a run of consecutive code units. *)
Definition Substring (pat s : jsstring) : Prop :=
  exists pre post, s = pre ++ pat ++ post.

(** [pat] occurs in [s] at position [i]. *)
Definition OccursAt (i : nat) (pat s : jsstring) : Prop :=
  exists pre post, s = pre ++ pat ++ post /\ length pre = i.

(** Every code unit of [s] is white space (the empty string included). *)
Definition blank (s : jsstring) : bool := forallb isWhiteSpace s.

(** The case mapping restricted to what it does on ASCII, used to run the
    component on concrete ASCII data. *)
#[export] Instance asciiCaseMapping : CaseMapping :=
  {| toLowerCase := map asciiLower;
     toLowerCase_ascii := fun s _ => eq_refl |}.

End JSString.

Module Theme.

(** A custom property of [index.css] holds either the three components of
    an HSL colour or a length. The style sheet writes decimals with at most
    one digit after the point for percentages and two for the length, so a
    percentage is kept in tenths of a percent ([84.2%] is [842]) and the
    length in hundredths of a rem ([0.75rem] is [75]); the hue is in whole
    degrees. *)
Inductive TokenValue :=
| HSL (hue : N) (saturation : N) (lightness : N)
| Rem (hundredths : N).

Definition Profile := list (string * TokenValue).

Definition pct (whole tenth : N) : N := (10 * whole + tenth)%N.

(** The [:root] block, lines 11 to 50, in source order. *)
Definition root : Profile :=
  [ ("background", HSL 0 (pct 0 0) (pct 0 0));
    ("foreground", HSL 0 (pct 0 0) (pct 100 0));
    ("card", HSL 0 (pct 0 0) (pct 6 0));
    ("card-foreground", HSL 0 (pct 0 0) (pct 95 0));
    ("popover", HSL 0 (pct 0 0) (pct 6 0));
    ("popover-foreground", HSL 0 (pct 0 0) (pct 95 0));
    ("primary", HSL 217 (pct 91 0) (pct 60 0));
    ("primary-foreground", HSL 0 (pct 0 0) (pct 100 0));
    ("secondary", HSL 0 (pct 0 0) (pct 12 0));
    ("secondary-foreground", HSL 0 (pct 0 0) (pct 85 0));
    ("muted", HSL 0 (pct 0 0) (pct 12 0));
    ("muted-foreground", HSL 0 (pct 0 0) (pct 60 0));
    ("accent", HSL 0 (pct 0 0) (pct 12 0));
    ("accent-foreground", HSL 0 (pct 0 0) (pct 85 0));
    ("destructive", HSL 0 (pct 84 2) (pct 60 2));
    ("destructive-foreground", HSL 0 (pct 0 0) (pct 98 0));
    ("border", HSL 0 (pct 0 0) (pct 20 0));
    ("input", HSL 0 (pct 0 0) (pct 20 0));
    ("ring", HSL 217 (pct 91 0) (pct 60 0));
    ("radius", Rem 75);
    ("sidebar-background", HSL 0 (pct 0 0) (pct 6 0));
    ("sidebar-foreground", HSL 0 (pct 0 0) (pct 85 0));
    ("sidebar-primary", HSL 217 (pct 91 0) (pct 60 0));
    ("sidebar-primary-foreground", HSL 0 (pct 0 0) (pct 100 0));
    ("sidebar-accent", HSL 0 (pct 0 0) (pct 12 0));
    ("sidebar-accent-foreground", HSL 0 (pct 0 0) (pct 85 0));
    ("sidebar-border", HSL 0 (pct 0 0) (pct 15 0));
    ("sidebar-ring", HSL 217 (pct 91 0) (pct 60 0)) ]%string.

(** The [.dark] block, lines 52 to 88, in source order. *)
Definition dark : Profile :=
  [ ("background", HSL 0 (pct 0 0) (pct 0 0));
    ("foreground", HSL 0 (pct 0 0) (pct 100 0));
    ("card", HSL 0 (pct 0 0) (pct 6 0));
    ("card-foreground", HSL 0 (pct 0 0) (pct 95 0));
    ("popover", HSL 0 (pct 0 0) (pct 6 0));
    ("popover-foreground", HSL 0 (pct 0 0) (pct 95 0));
    ("primary", HSL 217 (pct 91 0) (pct 60 0));
    ("primary-foreground", HSL 0 (pct 0 0) (pct 100 0));
    ("secondary", HSL 0 (pct 0 0) (pct 12 0));
    ("secondary-foreground", HSL 0 (pct 0 0) (pct 85 0));
    ("muted", HSL 0 (pct 0 0) (pct 12 0));
    ("muted-foreground", HSL 0 (pct 0 0) (pct 60 0));
    ("accent", HSL 0 (pct 0 0) (pct 12 0));
    ("accent-foreground", HSL 0 (pct 0 0) (pct 85 0));
    ("destructive", HSL 0 (pct 62 8) (pct 30 6));
    ("destructive-foreground", HSL 0 (pct 0 0) (pct 98 0));
    ("border", HSL 0 (pct 0 0) (pct 20 0));
    ("input", HSL 0 (pct 0 0) (pct 20 0));
    ("ring", HSL 217 (pct 91 0) (pct 60 0));
    ("sidebar-background", HSL 0 (pct 0 0) (pct 6 0));
    ("sidebar-foreground", HSL 0 (pct 0 0) (pct 85 0));
    ("sidebar-primary", HSL 217 (pct 91 0) (pct 60 0));
    ("sidebar-primary-foreground", HSL 0 (pct 0 0) (pct 100 0));
    ("sidebar-accent", HSL 0 (pct 0 0) (pct 12 0));
    ("sidebar-accent-foreground", HSL 0 (pct 0 0) (pct 85 0));
    ("sidebar-border", HSL 0 (pct 0 0) (pct 15 0));
    ("sidebar-ring", HSL 217 (pct 91 0) (pct 60 0)) ]%string.

Definition tokenNames (p : Profile) : list string := map fst p.

(** The value a profile gives a token: the last declaration of the name
    wins in a CSS block, and no name is declared twice in either block. *)
Fixpoint tokenValue (n : string) (p : Profile) : option TokenValue :=
  match p with
  | [] => None
  | (m, v) :: rest =>
      match tokenValue n rest with
      | Some v' => Some v'
      | None => if String.eqb n m then Some v else None
      end
  end.

Definition defines (p : Profile) (n : string) : bool :=
  existsb (String.eqb n) (tokenNames p).

End Theme.

Module TagsDialog.
Import JSString.

(** [interface TagItem], lines 10 to 13. *)
Record TagItem := mkTag { name : jsstring; url : jsstring }.

(** The five [useState] cells of the component, lines 21 to 25. *)
Record State := mkState {
  tags : list TagItem;
  filteredTags : list TagItem;
  searchTerm : jsstring;
  isOpen : bool;
  isLoading : bool
}.

(** What a rejected promise carries: [fetch] rejects with a [TypeError]
    when the network read fails, [response.json()] with a [SyntaxError]
    when the body is not JSON. *)
Inductive JSError := TypeError | SyntaxError.

(** What the component does to the outside: the host's callback, the
    console, the network. *)
Inductive Effect :=
| OnTagSelect (tagUrl tagName : jsstring)
| ConsoleError (message : jsstring) (detail : option JSError)
| Fetch (resource : jsstring).

(** The component in its surroundings: the state cells, the effects so far
    (oldest first), the number of reads not settled yet, and whether
    [setTags] ran since the last commit. React compares the dependencies of
    an effect with [Object.is]; an array handed to [setTags] is always the
    fresh one [response.json()] built, so the dependency [tags] changes
    exactly when [setTags] ran. *)
Record World := mkWorld {
  st : State;
  out : list Effect;
  inFlight : nat;
  tagsFresh : bool
}.

(** ** A state and exception monad *)

Inductive Completion (A : Type) :=
| Normal (a : A)
| Throw (e : JSError).
Arguments Normal {A} a.
Arguments Throw {A} e.

Definition M (A : Type) : Type := World -> Completion A * World.

Definition ret {A} (a : A) : M A := fun w => (Normal a, w).

Definition throw {A} (e : JSError) : M A := fun w => (Throw e, w).

Definition bind {A B} (c : M A) (k : A -> M B) : M B :=
  fun w =>
    match c w with
    | (Normal a, w') => k a w'
    | (Throw e, w') => (Throw e, w')
    end.

Notation "x <- c1 ;; c2" := (bind c1 (fun x => c2))
  (at level 61, c1 at next level, right associativity).
Notation "c1 ;; c2" := (bind c1 (fun _ => c2))
  (at level 61, right associativity).

(** [try { body } catch (error) { handler } finally { finalizer }]: the
    finalizer runs on every path, and the statement completes as the body
    or the handler did unless the finalizer itself throws. *)
Definition tryCatchFinally {A} (body : M A) (handler : JSError -> M A)
    (finalizer : M unit) : M A :=
  fun w =>
    let '(r, w1) :=
      match body w with
      | (Normal a, w1) => (Normal a, w1)
      | (Throw e, w1) => handler e w1
      end in
    match finalizer w1 with
    | (Normal _, w2) => (r, w2)
    | (Throw e, w2) => (Throw e, w2)
    end.

(** The world a computation leaves, and how it completes. *)
Definition exec {A} (c : M A) (w : World) : World := snd (c w).
Definition completion {A} (c : M A) (w : World) : Completion A := fst (c w).

Definition getState : M State := fun w => (Normal (st w), w).

Definition modifyState (f : State -> State) : M unit :=
  fun w => (Normal tt, mkWorld (f (st w)) (out w) (inFlight w) (tagsFresh w)).

Definition emit (e : Effect) : M unit :=
  fun w => (Normal tt, mkWorld (st w) (out w ++ [e]) (inFlight w) (tagsFresh w)).

(** ** The state setters *)

Definition setTags (v : list TagItem) : M unit :=
  fun w =>
    (Normal tt,
     mkWorld (mkState v (filteredTags (st w)) (searchTerm (st w))
                (isOpen (st w)) (isLoading (st w)))
       (out w) (inFlight w) true).

Definition setFilteredTags (v : list TagItem) : M unit :=
  modifyState (fun s =>
    mkState (tags s) v (searchTerm s) (isOpen s) (isLoading s)).

Definition setSearchTerm (v : jsstring) : M unit :=
  modifyState (fun s =>
    mkState (tags s) (filteredTags s) v (isOpen s) (isLoading s)).

Definition setIsOpen (v : bool) : M unit :=
  modifyState (fun s =>
    mkState (tags s) (filteredTags s) (searchTerm s) v (isLoading s)).

Definition setIsLoading (v : bool) : M unit :=
  modifyState (fun s =>
    mkState (tags s) (filteredTags s) (searchTerm s) (isOpen s) v).

(** ** The outside *)

(** The host's callback (prop [onTagSelect], line 16) is observed as an
    effect; what the host does with the call is not part of the
    component. *)
Definition onTagSelect (tagUrl tagName : jsstring) : M unit :=
  emit (OnTagSelect tagUrl tagName).

Definition consoleError (message : jsstring) (detail : option JSError)
  : M unit :=
  emit (ConsoleError message detail).

(** A response as the loader reads it: the status, and the tag records the
    body decodes to ([None] when the body is not JSON). A body that is
    JSON is taken to be an array of tag records, the type the state cell
    [tags] is declared with. [response.ok] is true for a status from 200
    to 299. *)
Record Response := mkResponse {
  status : nat;
  body : option (list TagItem)
}.

Definition ok (r : Response) : bool :=
  (200 <=? status r) && (status r <=? 299).

(** What becomes of the promise [fetch] returned. *)
Inductive FetchOutcome :=
| Rejected (e : JSError)
| Resolved (r : Response).

(** [fetch(resource)] up to the point where the caller awaits: the read is
    issued. *)
Definition fetchIssue (resource : jsstring) : M unit :=
  fun w =>
    (Normal tt,
     mkWorld (st w) (out w ++ [Fetch resource]) (S (inFlight w))
       (tagsFresh w)).

(** The [await] on that promise once it settled as [o]: a rejection is
    thrown at the await. *)
Definition awaitFetch (o : FetchOutcome) : M Response :=
  fun w =>
    let w' := mkWorld (st w) (out w) (pred (inFlight w)) (tagsFresh w) in
    match o with
    | Rejected e => (Throw e, w')
    | Resolved r => (Normal r, w')
    end.

(** [await response.json()] *)
Definition json (r : Response) : M (list TagItem) :=
  match body r with
  | Some tagsData => ret tagsData
  | None => throw SyntaxError
  end.

Definition ORIGIN : jsstring := lit "https://bestsimilar.com".
Definition RESOURCE : jsstring := lit "/tags.json".

Section Component.
Context {caseMapping : CaseMapping}.

(** ** [loadTags], lines 29 to 45

    An async function, cut where it first suspends. [loadTagsStart] is
    what runs when the effect calls it: line 30, then the read is issued
    and the function waits. [loadTagsResume] is the rest, run when the
    promise has settled; no state cell is written between the two awaits
    of lines 32 and 34, so they are taken in one go. *)
Definition loadTagsStart : M unit :=
  setIsLoading true ;;
  fetchIssue RESOURCE.

Definition loadTagsResume (o : FetchOutcome) : M unit :=
  tryCatchFinally
    (response <- awaitFetch o ;;
     if ok response then
       tagsData <- json response ;;
       setTags tagsData ;;
       setFilteredTags tagsData
     else
       consoleError (lit "Failed to load tags") None)
    (fun error => consoleError (lit "Error loading tags:") (Some error))
    (setIsLoading false).

(** The whole loader, for a read that settles as [o] with nothing
    happening in between. *)
Definition loadTags (o : FetchOutcome) : M unit :=
  loadTagsStart ;;
  loadTagsResume o.

(** The effect of lines 28 to 50, run when [isOpen] changed. *)
Definition loadEffect : M unit :=
  s <- getState ;;
  if isOpen s then loadTagsStart else ret tt.

(** The effect of lines 53 to 62, run when [searchTerm] or [tags]
    changed. *)
Definition filterEffect : M unit :=
  s <- getState ;;
  if strictEq (trim (searchTerm s)) [] then
    setFilteredTags (tags s)
  else
    let filtered :=
      filter (fun tag =>
                includes (toLowerCase (name tag)) (toLowerCase (searchTerm s)))
             (tags s) in
    setFilteredTags filtered.

(** [handleTagClick], lines 64 to 70; [tagPath] is the constant of
    line 66. *)
Definition tagPath (tag : TagItem) : jsstring :=
  replace (url tag) ORIGIN [].

Definition handleTagClick (tag : TagItem) : M unit :=
  onTagSelect (tagPath tag) (name tag) ;;
  setIsOpen false ;;
  setSearchTerm [].

(** ** What is rendered, lines 110 to 134

    The content of the scroll area: twenty placeholders while loading,
    else one badge per visible tag, else the message that no tag matches
    the search term. The dialog content exists only while the dialog is
    open. *)
Inductive Body :=
| Skeleton (cells : nat)
| Badges (items : list TagItem)
| NoTagsFound (term : jsstring).

Definition renderBody (s : State) : Body :=
  if isLoading s then Skeleton 20
  else if 0 <? length (filteredTags s) then Badges (filteredTags s)
  else NoTagsFound (searchTerm s).

Definition render (s : State) : option Body :=
  if isOpen s then Some (renderBody s) else None.

(** The tag behind the [i]-th badge on screen, if there is one. *)
Definition badgeAt (s : State) (i : nat) : option TagItem :=
  match render s with
  | Some (Badges items) => nth_error items i
  | _ => None
  end.

(** ** Events

    What the component reacts to: the dialog primitive asking to open or
    close ([onOpenChange], line 73), the user editing the search input
    (line 102), a click on a badge (line 123), and a pending read
    settling. *)
Inductive Action :=
| OpenChange (open : bool)
| InputChange (value : jsstring)
| ClickBadge (i : nat)
| Settle (o : FetchOutcome).

Definition enabled (a : Action) (w : World) : bool :=
  match a with
  | OpenChange _ => true
  | InputChange _ => isOpen (st w)
  | ClickBadge i =>
      match badgeAt (st w) i with Some _ => true | None => false end
  | Settle _ => 0 <? inFlight w
  end.

Definition handler (a : Action) : M unit :=
  match a with
  | OpenChange open => setIsOpen open
  | InputChange value => setSearchTerm value
  | ClickBadge i =>
      s <- getState ;;
      match badgeAt s i with
      | Some tag => handleTagClick tag
      | None => ret tt
      end
  | Settle o => loadTagsResume o
  end.

Definition getFresh : M bool := fun w => (Normal (tagsFresh w), w).

Definition clearFresh : M unit :=
  fun w => (Normal tt, mkWorld (st w) (out w) (inFlight w) false).

(** After the state updates of a handler are committed, React runs the
    effects whose dependencies differ from those of the previous render,
    in the order the component declares them. Neither effect writes a
    dependency of the other or of itself, so one round settles. *)
Definition runEffects (prev : State) : M unit :=
  s <- getState ;;
  fresh <- getFresh ;;
  (if Bool.eqb (isOpen prev) (isOpen s) then ret tt else loadEffect) ;;
  (if strictEq (searchTerm prev) (searchTerm s) && negb fresh
   then ret tt else filterEffect) ;;
  clearFresh.

Definition step (a : Action) (w : World) : option World :=
  if enabled a w
  then Some (exec (handler a ;; runEffects (st w)) w)
  else None.

Fixpoint run (actions : list Action) (w : World) : option World :=
  match actions with
  | [] => Some w
  | a :: rest =>
      match step a w with
      | Some w' => run rest w'
      | None => None
      end
  end.

(** The component as mounted: the defaults of lines 21 to 25. At mount
    the filter effect copies the empty [tags] into [filteredTags] and the
    load effect does nothing, the dialog being closed. *)
Definition initialState : State := mkState [] [] [] false false.
Definition mounted : World := mkWorld initialState [] 0 false.

(** The worlds the component can be in. *)
Inductive Reachable : World -> Prop :=
| reach_mounted : Reachable mounted
| reach_step a w w' : Reachable w -> step a w = Some w' -> Reachable w'.

(** ** Vocabulary of the properties *)

(** The visible set for a catalog and a query: what the filter effect
    leaves in [filteredTags] when it runs on them. *)
Definition visibleSet (c : list TagItem) (q : jsstring) : list TagItem :=
  filteredTags
    (st (exec filterEffect (mkWorld (mkState c [] q false false) [] 0 false))).

(** A record's name contains the query, both lower-cased. *)
Definition NameContains (q : jsstring) (tag : TagItem) : Prop :=
  Substring (toLowerCase q) (toLowerCase (name tag)).

(** A load that brings no tags: the read was rejected, the status is not a
    success, or the body does not decode. *)
Definition isFailure (o : FetchOutcome) : bool :=
  match o with
  | Rejected _ => true
  | Resolved r =>
      negb (ok r) || match body r with Some _ => false | None => true end
  end.

(** How often the host's callback was called. *)
Definition selections (es : list Effect) : list (jsstring * jsstring) :=
  flat_map (fun e =>
              match e with
              | OnTagSelect p n => [(p, n)]
              | _ => []
              end) es.

(** The diagnostics written to the console. *)
Definition diagnostics (es : list Effect) : list Effect :=
  filter (fun e => match e with ConsoleError _ _ => true | _ => false end) es.

(** The invariant of the component: between events no write to [tags] is
    waiting for its effect, and the visible set is the one the filter
    engine computes from the catalog and the query. *)
Definition Consistent (w : World) : Prop :=
  tagsFresh w = false /\
  filteredTags (st w) = visibleSet (tags (st w)) (searchTerm (st w)).

End Component.

(** [v] picks the entries of [c] at the positions [idx], which increase:
    an order-preserving choice of entries by index. *)
Definition PicksAt {A} (idx : list nat) (c v : list A) : Prop :=
  StronglySorted lt idx /\
  Forall2 (fun i x => nth_error c i = Some x) idx v.

(** [v] is, in order, exactly the entries of [c] that satisfy [P], each
    position of [c] counted on its own. *)
Definition ExactlyThose {A} (P : A -> Prop) (c v : list A) : Prop :=
  exists idx,
    PicksAt idx c v /\
    forall i x, nth_error c i = Some x -> (In i idx <-> P x).

End TagsDialog.

(** Concrete data: the records and responses of the scenarios. All of it
    is ASCII, and the component is run on it with [asciiCaseMapping]. *)
Module Scenario.
Import JSString TagsDialog.

Definition actionTag : TagItem :=
  mkTag (lit "Action") (lit "https://bestsimilar.com/tag/action").
Definition dramaTag : TagItem :=
  mkTag (lit "Drama") (lit "https://bestsimilar.com/tag/drama").

(** A record of another origin. *)
Definition otherTag : TagItem :=
  mkTag (lit "Other") (lit "https://other.com/x").

(** A record of another origin whose url carries the known origin in its
    query string. *)
Definition redirectTag : TagItem :=
  mkTag (lit "Redirect")
    (lit "https://other.com/r?u=https://bestsimilar.com/x").

Definition catalog : list TagItem := [actionTag; dramaTag].

(** The resource served as it should be, a server error, and a success
    whose body is not JSON. *)
Definition served : FetchOutcome := Resolved (mkResponse 200 (Some catalog)).
Definition serverError : FetchOutcome := Resolved (mkResponse 500 None).
Definition notJson : FetchOutcome := Resolved (mkResponse 200 None).
Definition offline : FetchOutcome := Rejected TypeError.

(** The dialog opened and loaded; then with a query typed in. *)
Definition openAndLoad : list Action := [OpenChange true; Settle served].
Definition searchFor (q : jsstring) : list Action :=
  openAndLoad ++ [InputChange q].

(** The world a sequence of events leads to from the mounted component,
    read through [view]; [None] if some event could not happen. *)
Definition after {A} (actions : list Action) (view : World -> A) : option A :=
  option_map view (run actions mounted).

(** The same world itself (the mounted one if some event could not
    happen). *)
Definition world (actions : list Action) : World :=
  match run actions mounted with
  | Some w => w
  | None => mounted
  end.

End Scenario.

(** The rest of what the component puts on screen, and counters over its
    effects and events. *)
Module Shell.
Import JSString TagsDialog.

(** The decimal digits of a number, most significant first. *)
Fixpoint digits (u : Decimal.uint) : jsstring :=
  match u with
  | Decimal.Nil => []
  | Decimal.D0 u' => 48%N :: digits u'
  | Decimal.D1 u' => 49%N :: digits u'
  | Decimal.D2 u' => 50%N :: digits u'
  | Decimal.D3 u' => 51%N :: digits u'
  | Decimal.D4 u' => 52%N :: digits u'
  | Decimal.D5 u' => 53%N :: digits u'
  | Decimal.D6 u' => 54%N :: digits u'
  | Decimal.D7 u' => 55%N :: digits u'
  | Decimal.D8 u' => 56%N :: digits u'
  | Decimal.D9 u' => 57%N :: digits u'
  end.

(** ToString of an array index, as a template literal applies it: the
    index in decimal. *)
Definition numberToString (n : nat) : jsstring := digits (Nat.to_uint n).

(** The [key] of a badge, line 120: the template literal
    [`${tag.name}-${index}`]. *)
Definition badgeKey (tag : TagItem) (index : nat) : jsstring :=
  name tag ++ lit "-" ++ numberToString index.

(** [items.map((item, index) => f(item, index))], counting from [index]. *)
Fixpoint mapIndexed {A B} (f : A -> nat -> B) (index : nat) (items : list A)
  : list B :=
  match items with
  | [] => []
  | item :: rest => f item index :: mapIndexed f (S index) rest
  end.

(** The keys of the badges of lines 118 to 127. *)
Definition badgeKeys (items : list TagItem) : list jsstring :=
  mapIndexed badgeKey 0 items.

(** The footer, lines 139 to 143: the two numbers of "Showing N of M
    tags", rendered only when the visible set is not empty. Like the
    scroll area it is part of the dialog content, which exists only while
    the dialog is open. *)
Definition renderFooter (s : State) : option (nat * nat) :=
  if 0 <? length (filteredTags s)
  then Some (length (filteredTags s), length (tags s))
  else None.

Definition footer (s : State) : option (nat * nat) :=
  if isOpen s then renderFooter s else None.

(** The resources read so far. *)
Definition fetches (es : list Effect) : list jsstring :=
  flat_map (fun e => match e with Fetch r => [r] | _ => [] end) es.

(** How many of the events are clicks on a badge. *)
Definition clicks (actions : list Action) : nat :=
  length (filter (fun a => match a with ClickBadge _ => true | _ => false end)
            actions).

End Shell.

(* ===================================================================== *)
(** * Part II: properties                                                 *)
(* ===================================================================== *)

Import JSString.

(** ** Strings *)

Section StringFacts.

Lemma unit_eqb_eq (a b : codeUnit) : unit_eqb a b = true <-> a = b.
Proof. unfold unit_eqb. apply N.eqb_eq. Qed.

Lemma strictEq_eq (a b : jsstring) : strictEq a b = true <-> a = b.
Proof.
  revert b. induction a as [|x a IH]; intros [|y b]; simpl;
    try (split; [discriminate | congruence]); try tauto.
  rewrite andb_true_iff, unit_eqb_eq, IH. split.
  - intros [-> ->]. reflexivity.
  - intros E. injection E. auto.
Qed.

Lemma strictEq_nil (a : jsstring) : strictEq a [] = true <-> a = [].
Proof. apply strictEq_eq. Qed.

Lemma matchesAt0_spec (s pat : jsstring) :
  matchesAt0 s pat = true <-> exists post, s = pat ++ post.
Proof.
  revert s. induction pat as [|p pat IH]; intros s; simpl.
  - split; eauto.
  - destruct s as [|c s].
    + split; [discriminate | intros [post E]; discriminate].
    + rewrite andb_true_iff, unit_eqb_eq, IH. split.
      * intros [-> [post ->]]. eauto.
      * intros [post E]. injection E as -> ->. eauto.
Qed.

Lemma matchesAt0_app (pat post : jsstring) : matchesAt0 (pat ++ post) pat = true.
Proof. apply matchesAt0_spec. eauto. Qed.

Lemma OccursAt_matches (j : nat) (pat s : jsstring) :
  OccursAt j pat s -> matchesAt0 (skipn j s) pat = true.
Proof.
  intros (pre & post & -> & <-).
  rewrite skipn_app, skipn_all, Nat.sub_diag. simpl. apply matchesAt0_app.
Qed.

(** [indexOfFrom] answers with the least position of an occurrence. *)
Lemma indexOfFrom_Some (s pat : jsstring) :
  forall i k, indexOfFrom i s pat = Some k ->
  exists pre post,
    s = pre ++ pat ++ post /\ k = i + length pre /\
    forall pre' post', s = pre' ++ pat ++ post' -> length pre <= length pre'.
Proof.
  induction s as [|c s IH]; intros i k; simpl.
  - destruct (matchesAt0 [] pat) eqn:E; [|discriminate].
    intros [= <-]. apply matchesAt0_spec in E as [post E].
    exists [], post. simpl. repeat split; auto with arith.
  - destruct (matchesAt0 (c :: s) pat) eqn:E.
    + intros [= <-]. apply matchesAt0_spec in E as [post E].
      exists [], post. simpl. repeat split; auto with arith.
    + intros Hk. destruct (IH _ _ Hk) as (pre & post & -> & -> & Hmin).
      exists (c :: pre), post. simpl. repeat split; [lia|].
      intros [|c' pre'] post' E'; simpl in E'.
      * exfalso. assert (matchesAt0 (c :: pre ++ pat ++ post) pat = true)
          by (apply matchesAt0_spec; eauto). congruence.
      * injection E' as _ E'. simpl. apply le_n_S. eapply Hmin, E'.
Qed.

Lemma indexOfFrom_None (s pat : jsstring) :
  forall i, indexOfFrom i s pat = None ->
  forall pre post, s <> pre ++ pat ++ post.
Proof.
  induction s as [|c s IH]; intros i; simpl.
  - destruct (matchesAt0 [] pat) eqn:E; [discriminate|].
    intros _ pre post E'. destruct pre; simpl in E'.
    + assert (matchesAt0 [] pat = true) by (apply matchesAt0_spec; eauto).
      congruence.
    + discriminate.
  - destruct (matchesAt0 (c :: s) pat) eqn:E; [discriminate|].
    intros Hn [|c' pre] post E'; simpl in E'.
    + assert (matchesAt0 (c :: s) pat = true)
        by (apply matchesAt0_spec; eauto). congruence.
    + injection E' as _ E'. eapply IH; eauto.
Qed.

Lemma indexOf_Some (s pat : jsstring) (k : nat) :
  indexOf s pat = Some k ->
  exists pre post,
    s = pre ++ pat ++ post /\ length pre = k /\
    forall j, j < k -> ~ OccursAt j pat s.
Proof.
  intros H. apply indexOfFrom_Some in H as (pre & post & E & -> & Hmin).
  exists pre, post. repeat split; auto.
  intros j Hj (pre' & post' & E' & Hl). specialize (Hmin _ _ E').
  simpl in Hj. lia.
Qed.

Lemma indexOf_None (s pat : jsstring) :
  indexOf s pat = None <-> ~ Substring pat s.
Proof.
  split.
  - intros H (pre & post & E). eapply indexOfFrom_None; eauto.
  - intros H. unfold indexOf. destruct (indexOfFrom 0 s pat) eqn:E; auto.
    exfalso. apply H. apply indexOfFrom_Some in E as (pre & post & E & _).
    exists pre, post. exact E.
Qed.

(** [includes] decides [Substring]. *)
Lemma includes_spec (s pat : jsstring) :
  includes s pat = true <-> Substring pat s.
Proof.
  unfold includes. destruct (indexOf s pat) eqn:E.
  - split; auto. intros _.
    apply indexOf_Some in E as (pre & post & E & _). exists pre, post. exact E.
  - apply indexOf_None in E. split; [discriminate | tauto].
Qed.

Lemma includes_false (s pat : jsstring) :
  includes s pat = false <-> ~ Substring pat s.
Proof.
  rewrite <- includes_spec. destruct (includes s pat); split; congruence.
Qed.

(** [replace] on the first occurrence, wherever it stands. *)
Lemma replace_first (pre pat post repl : jsstring) :
  (forall j, j < length pre -> ~ OccursAt j pat (pre ++ pat ++ post)) ->
  replace (pre ++ pat ++ post) pat repl = pre ++ repl ++ post.
Proof.
  intros Hfirst. unfold replace.
  destruct (indexOf (pre ++ pat ++ post) pat) as [k|] eqn:E.
  - apply indexOf_Some in E as (pre' & post' & E & Hl & Hmin).
    assert (k = length pre) as ->.
    { destruct (Nat.lt_trichotomy k (length pre)) as [Hlt|[?|Hgt]]; auto.
      - exfalso. apply (Hfirst k Hlt). exists pre', post'. auto.
      - exfalso. apply (Hmin (length pre) Hgt). exists pre, post. auto. }
    rewrite firstn_app, Nat.sub_diag, firstn_all. simpl. rewrite app_nil_r.
    rewrite skipn_app, skipn_all2 by lia.
    replace (length pre + length pat - length pre) with (length pat) by lia.
    rewrite skipn_app, skipn_all, Nat.sub_diag. reflexivity.
  - apply indexOf_None in E. exfalso. apply E. exists pre, post. reflexivity.
Qed.

Lemma replace_prefix (pat rest repl : jsstring) :
  replace (pat ++ rest) pat repl = repl ++ rest.
Proof.
  apply (replace_first [] pat rest repl). simpl. intros j Hj. lia.
Qed.

Lemma replace_absent (s pat repl : jsstring) :
  ~ Substring pat s -> replace s pat repl = s.
Proof.
  intros H. apply indexOf_None in H. unfold replace. rewrite H. reflexivity.
Qed.

(** [trim] leaves nothing exactly when there was only white space. *)
Lemma trimStart_nil (s : jsstring) : trimStart s = [] <-> blank s = true.
Proof.
  unfold blank. induction s as [|c s IH]; simpl; [tauto|].
  destruct (isWhiteSpace c); simpl; [exact IH|].
  split; discriminate.
Qed.

Lemma trimStart_snoc (s : jsstring) (c : codeUnit) :
  isWhiteSpace c = false -> trimStart (s ++ [c]) <> [].
Proof.
  intros Hc. induction s as [|d s IH]; simpl.
  - rewrite Hc. discriminate.
  - destruct (isWhiteSpace d); [exact IH | discriminate].
Qed.

Lemma trimStart_head (s : jsstring) :
  match trimStart s with
  | [] => True
  | c :: _ => isWhiteSpace c = false
  end.
Proof.
  induction s as [|d s IH]; simpl; auto.
  destruct (isWhiteSpace d) eqn:E; auto.
Qed.

Lemma trim_nil (s : jsstring) : trim s = [] <-> blank s = true.
Proof.
  rewrite <- trimStart_nil. unfold trim, trimEnd. split.
  - intros H. pose proof (trimStart_head s) as Hh.
    destruct (trimStart s) as [|c r]; auto.
    exfalso. simpl in H.
    apply (f_equal (@rev _)) in H. rewrite rev_involutive in H. simpl in H.
    revert H. apply trimStart_snoc. exact Hh.
  - intros ->. reflexivity.
Qed.

End StringFacts.

Import TagsDialog Scenario.

(** ** The selection dispatcher *)

Section Dispatcher.

Example tagPath_action : tagPath actionTag = lit "/tag/action".
Proof. reflexivity. Qed.

Example tagPath_other : tagPath otherTag = lit "https://other.com/x".
Proof. reflexivity. Qed.

Example tagPath_redirect : tagPath redirectTag = lit "https://other.com/r?u=/x".
Proof. reflexivity. Qed.

Lemma startsWith_spec (s pat : jsstring) :
  startsWith s pat = true <-> exists rest, s = pat ++ rest.
Proof. apply matchesAt0_spec. Qed.

Lemma tagPath_length (tag : TagItem) :
  Substring ORIGIN (url tag) ->
  length (tagPath tag) + length ORIGIN = length (url tag).
Proof.
  intros Hs. unfold tagPath, replace.
  destruct (indexOf (url tag) ORIGIN) as [k|] eqn:E.
  - apply indexOf_Some in E as (pre & post & E & Hl & _). rewrite E.
    subst k. rewrite firstn_app, Nat.sub_diag, firstn_all. simpl firstn.
    rewrite skipn_app, skipn_all2 by lia.
    replace (length pre + length ORIGIN - length pre) with (length ORIGIN)
      by lia.
    rewrite skipn_app, skipn_all, Nat.sub_diag. simpl skipn.
    rewrite !length_app. simpl. lia.
  - apply indexOf_None in E. contradiction.
Qed.

(** C1, as amended. The path handed to the host is the tag's url with the
    first occurrence of the origin ['https://bestsimilar.com'] removed,
    wherever in the url it stands: a url that holds the origin is cut
    into what precedes its first occurrence and what follows it, and the
    path is the two put together. So for a url that starts with the
    origin the path is what follows it, and for a url in which the origin
    occurs nowhere the path is the url unchanged. *)
Theorem tagPath_strips_origin (tag : TagItem) :
  (forall rest, url tag = ORIGIN ++ rest -> tagPath tag = rest) /\
  (startsWith (url tag) ORIGIN = true -> url tag = ORIGIN ++ tagPath tag) /\
  (~ Substring ORIGIN (url tag) -> tagPath tag = url tag) /\
  (forall pre post,
     url tag = pre ++ ORIGIN ++ post ->
     (forall j, j < length pre -> ~ OccursAt j ORIGIN (url tag)) ->
     tagPath tag = pre ++ post) /\
  (Substring ORIGIN (url tag) ->
   exists pre post,
     url tag = pre ++ ORIGIN ++ post /\
     (forall j, j < length pre -> ~ OccursAt j ORIGIN (url tag)) /\
     tagPath tag = pre ++ post).
Proof.
  split; [|split; [|split; [|split]]].
  - intros rest E. unfold tagPath. rewrite E. apply replace_prefix.
  - intros Hs. apply startsWith_spec in Hs as [rest E].
    unfold tagPath. rewrite E at 2. rewrite replace_prefix. exact E.
  - intros Hn. unfold tagPath. apply replace_absent. exact Hn.
  - intros pre post E Hfirst. unfold tagPath. rewrite E in *.
    apply (replace_first pre ORIGIN post []). exact Hfirst.
  - intros Hs. destruct (indexOf (url tag) ORIGIN) as [k|] eqn:Ek.
    + apply indexOf_Some in Ek as (pre & post & E & Hl & Hmin).
      exists pre, post. subst k. split; [exact E|]. split; [exact Hmin|].
      unfold tagPath. rewrite E in *.
      apply (replace_first pre ORIGIN post []). exact Hmin.
    + apply indexOf_None in Ek. contradiction.
Qed.

(** The first record of the scenarios: the origin is stripped. *)
Lemma tagPath_strips_origin_witness : tagPath actionTag = lit "/tag/action".
Proof.
  refine (proj1 (tagPath_strips_origin actionTag) (lit "/tag/action") _).
  reflexivity.
Defined.

(** C1 as stated fails: a url that does not start with the origin but
    carries it further on is not passed through unchanged. *)
Lemma tagPath_not_prefix_only :
  startsWith (url redirectTag) ORIGIN = false /\
  tagPath redirectTag <> url redirectTag.
Proof. split; [reflexivity | discriminate]. Qed.

(** C8. The path derivation removes exactly the first occurrence of the
    origin, wherever in the url it stands; hence a url that holds the
    origin anywhere is never passed on unchanged, and there is a url that
    does not begin with the origin for which the host receives a string
    other than the url. *)
Theorem tagPath_removes_first_occurrence :
  (forall tag pre post,
     url tag = pre ++ ORIGIN ++ post ->
     (forall j, j < length pre -> ~ OccursAt j ORIGIN (url tag)) ->
     tagPath tag = pre ++ post) /\
  (forall tag, Substring ORIGIN (url tag) -> tagPath tag <> url tag) /\
  (exists tag w,
     startsWith (url tag) ORIGIN = false /\
     Substring ORIGIN (url tag) /\
     out (exec (handleTagClick tag) w) = [OnTagSelect (tagPath tag) (name tag)] /\
     tagPath tag <> url tag).
Proof.
  split; [|split].
  - intros tag pre post E Hfirst. unfold tagPath. rewrite E in *.
    apply (replace_first pre ORIGIN post []). exact Hfirst.
  - intros tag Hs E. apply tagPath_length in Hs. rewrite E in Hs.
    simpl in Hs. lia.
  - exists redirectTag, mounted. repeat split.
    + exists (lit "https://other.com/r?u="), (lit "/x"). reflexivity.
    + discriminate.
Qed.

(** The origin in the query string of another site's url. *)
Lemma tagPath_removes_first_occurrence_witness :
  tagPath redirectTag = lit "https://other.com/r?u=" ++ lit "/x".
Proof.
  refine (proj1 tagPath_removes_first_occurrence redirectTag
            (lit "https://other.com/r?u=") (lit "/x") _ _).
  - reflexivity.
  - intros j Hj Ho. apply OccursAt_matches in Ho. revert Ho.
    change (j < 22) in Hj.
    do 22 (destruct j as [|j]; [vm_compute; discriminate|]). lia.
Defined.

End Dispatcher.

(** ** Choosing entries by index *)

Section Picking.
Context {A : Type}.

Lemma sorted_map_S (idx : list nat) :
  StronglySorted lt idx -> StronglySorted lt (map S idx).
Proof.
  induction 1 as [|i idx Hs IH Hall]; simpl; constructor; auto.
  rewrite Forall_map. eapply Forall_impl; [|exact Hall].
  simpl. intros j Hj. lia.
Qed.

Lemma sorted_cons_0 (idx : list nat) :
  StronglySorted lt idx -> StronglySorted lt (0 :: map S idx).
Proof.
  intros Hs. constructor; [apply sorted_map_S, Hs|].
  rewrite Forall_map. apply Forall_forall. intros j _. lia.
Qed.

Lemma picks_shift (x : A) (idx : list nat) (c v : list A) :
  Forall2 (fun i y => nth_error c i = Some y) idx v ->
  Forall2 (fun i y => nth_error (x :: c) i = Some y) (map S idx) v.
Proof. induction 1; simpl; constructor; auto. Qed.

Lemma in_map_S (j : nat) (idx : list nat) : In (S j) (map S idx) <-> In j idx.
Proof.
  rewrite in_map_iff. split.
  - intros (k & E & Hk). injection E as ->. exact Hk.
  - intros Hj. exists j. auto.
Qed.

Lemma not_in_map_S_0 (idx : list nat) : ~ In 0 (map S idx).
Proof. rewrite in_map_iff. intros (k & E & _). discriminate. Qed.

(** [filter] keeps, in order, exactly the entries that pass the test. *)
Lemma filter_exactly (p : A -> bool) (c : list A) :
  ExactlyThose (fun x => p x = true) c (filter p c).
Proof.
  induction c as [|x c (idx & (Hs & Hp) & Hin)].
  - exists []. repeat split; try constructor.
    + intros [].
    + destruct i; discriminate.
  - simpl. destruct (p x) eqn:Epx.
    + exists (0 :: map S idx). split; [split|].
      * apply sorted_cons_0, Hs.
      * constructor; [reflexivity | apply picks_shift, Hp].
      * intros [|j] y; simpl; intros Hy.
        -- injection Hy as <-. tauto.
        -- rewrite <- (Hin j y Hy). split.
           ++ intros [?|Hj]; [discriminate | apply in_map_S, Hj].
           ++ intros Hj. right. apply in_map_S, Hj.
    + exists (map S idx). split; [split|].
      * apply sorted_map_S, Hs.
      * apply picks_shift, Hp.
      * intros [|j] y; simpl; intros Hy.
        -- injection Hy as <-. split; [|congruence].
           intros H0. exfalso. exact (not_in_map_S_0 _ H0).
        -- rewrite <- (Hin j y Hy). apply in_map_S.
Qed.

(** The whole list is the choice of every position. *)
Lemma picks_all (c : list A) : PicksAt (seq 0 (length c)) c c.
Proof.
  split.
  - generalize 0. induction c as [|x c IH]; simpl; intros n; constructor.
    + apply IH.
    + apply Forall_forall. intros j Hj. apply in_seq in Hj. lia.
  - change c with (skipn 0 c) at 3.
    assert (forall n l, n + length l = length c -> skipn n c = l ->
              Forall2 (fun i x => nth_error c i = Some x) (seq n (length l)) l)
      as H.
    { intros n l. revert n. induction l as [|y l IH]; simpl; intros n Hn E.
      - constructor.
      - constructor.
        + rewrite <- (firstn_skipn n c) at 1. rewrite E.
          rewrite nth_error_app2; rewrite length_firstn, Nat.min_l by lia;
            [|lia]. rewrite Nat.sub_diag. reflexivity.
        + apply IH; [lia|].
          replace (S n) with (1 + n) by lia.
          rewrite <- skipn_skipn, E. reflexivity. }
    apply (H 0 c); reflexivity.
Qed.

(** A choice by increasing positions keeps only entries of the list. *)
Lemma picks_In (idx : list nat) (c v : list A) :
  PicksAt idx c v -> forall x, In x v -> In x c.
Proof.
  intros [_ Hp]. induction Hp as [|i y idx v Hy _ IH]; simpl.
  - intros x [].
  - intros x [<-|Hx]; [eapply nth_error_In, Hy | auto].
Qed.

End Picking.

(** ** The filter engine *)

Section FilterEngine.
Context {caseMapping : CaseMapping}.

Lemma visibleSet_eq (c : list TagItem) (q : jsstring) :
  visibleSet c q =
  if strictEq (trim q) [] then c
  else filter (fun tag => includes (toLowerCase (name tag)) (toLowerCase q)) c.
Proof.
  unfold visibleSet, exec, filterEffect, bind, getState. simpl.
  destruct (strictEq (trim q) []); reflexivity.
Qed.

(** The filter effect writes [filteredTags] and nothing else, and what it
    writes is [visibleSet] of the catalog and the query. *)
Lemma filterEffect_run (w : World) :
  filterEffect w =
  (Normal tt,
   mkWorld (mkState (tags (st w))
              (visibleSet (tags (st w)) (searchTerm (st w)))
              (searchTerm (st w)) (isOpen (st w)) (isLoading (st w)))
     (out w) (inFlight w) (tagsFresh w)).
Proof.
  rewrite visibleSet_eq. unfold filterEffect, bind, getState. simpl.
  destruct (strictEq (trim (searchTerm (st w))) []); reflexivity.
Qed.

Lemma visibleSet_blank (c : list TagItem) (q : jsstring) :
  trim q = [] -> visibleSet c q = c.
Proof.
  intros E. rewrite visibleSet_eq.
  destruct (strictEq (trim q) []) eqn:Eq; [reflexivity|].
  apply strictEq_nil in E. congruence.
Qed.

Lemma visibleSet_filter (c : list TagItem) (q : jsstring) :
  trim q <> [] ->
  visibleSet c q =
  filter (fun tag => includes (toLowerCase (name tag)) (toLowerCase q)) c.
Proof.
  intros E. rewrite visibleSet_eq.
  destruct (strictEq (trim q) []) eqn:Eq; [|reflexivity].
  apply strictEq_nil in Eq. contradiction.
Qed.

Lemma visibleSet_exactly (c : list TagItem) (q : jsstring) :
  trim q <> [] -> ExactlyThose (NameContains q) c (visibleSet c q).
Proof.
  intros E. rewrite (visibleSet_filter c q E).
  destruct (filter_exactly
              (fun tag => includes (toLowerCase (name tag)) (toLowerCase q)) c)
    as (idx & Hp & Hin).
  exists idx. split; [exact Hp|].
  intros i x Hx. rewrite (Hin i x Hx). apply includes_spec.
Qed.

Lemma visibleSet_picks (c : list TagItem) (q : jsstring) :
  exists idx, PicksAt idx c (visibleSet c q).
Proof.
  destruct (strictEq (trim q) []) eqn:Eq.
  - apply strictEq_nil in Eq. rewrite (visibleSet_blank c q Eq).
    eexists. apply picks_all.
  - assert (trim q <> []) as Hq
      by (intros E; apply strictEq_nil in E; congruence).
    destruct (visibleSet_exactly c q Hq) as (idx & Hp & _). eauto.
Qed.

Lemma visibleSet_In (c : list TagItem) (q : jsstring) (tag : TagItem) :
  trim q <> [] ->
  (In tag (visibleSet c q) <-> In tag c /\ NameContains q tag).
Proof.
  intros E. rewrite (visibleSet_filter c q E), filter_In.
  unfold NameContains. rewrite includes_spec. reflexivity.
Qed.

Lemma visibleSet_idem (c : list TagItem) (q : jsstring) :
  visibleSet (visibleSet c q) q = visibleSet c q.
Proof.
  rewrite !visibleSet_eq. destruct (strictEq (trim q) []); [reflexivity|].
  induction c as [|x c IH]; simpl; [reflexivity|].
  destruct (includes (toLowerCase (name x)) (toLowerCase q)) eqn:E; simpl.
  - rewrite E, IH. reflexivity.
  - exact IH.
Qed.

(** C2. After the filter effect has run on a catalog [c] and a query [q],
    the visible set is [c] itself when [q] trims to the empty string (that
    is, when [q] is empty or white space only), and otherwise it is, in
    the order of [c], exactly the records of [c] whose lower-cased name
    contains the lower-cased [q]; an empty catalog gives an empty visible
    set whatever the query. *)
Theorem filterEffect_visible (w : World) :
  let c := tags (st w) in
  let q := searchTerm (st w) in
  let v := filteredTags (st (exec filterEffect w)) in
  (trim q = [] -> v = c) /\
  (blank q = true -> v = c) /\
  (trim q <> [] -> ExactlyThose (NameContains q) c v) /\
  (c = [] -> v = []).
Proof.
  unfold exec. rewrite filterEffect_run. simpl.
  split; [|split; [|split]].
  - apply visibleSet_blank.
  - intros Hb. apply visibleSet_blank, trim_nil, Hb.
  - apply visibleSet_exactly.
  - intros ->. rewrite visibleSet_eq.
    destruct (strictEq (trim (searchTerm (st w))) []); reflexivity.
Qed.

End FilterEngine.

(** Scenario 1 as a run of the component: "dra" typed into the loaded
    dialog. *)
Lemma filterEffect_visible_witness :
  trim (searchTerm (st (world (searchFor (lit "dra"))))) <> [] /\
  filteredTags (st (exec filterEffect (world (searchFor (lit "dra")))))
    = [dramaTag] /\
  ExactlyThose (NameContains (searchTerm (st (world (searchFor (lit "dra"))))))
    (tags (st (world (searchFor (lit "dra")))))
    (filteredTags (st (exec filterEffect (world (searchFor (lit "dra")))))).
Proof.
  assert (trim (searchTerm (st (world (searchFor (lit "dra"))))) <> []) as Hq
    by (vm_compute; discriminate).
  split; [exact Hq|]. split; [vm_compute; reflexivity|].
  exact (proj1 (proj2 (proj2 (filterEffect_visible
                                (world (searchFor (lit "dra")))))) Hq).
Defined.

(** ** The loader *)

Section Loader.

Lemma loadTagsStart_run (w : World) :
  loadTagsStart w =
  (Normal tt,
   mkWorld (mkState (tags (st w)) (filteredTags (st w)) (searchTerm (st w))
              (isOpen (st w)) true)
     (out w ++ [Fetch RESOURCE]) (S (inFlight w)) (tagsFresh w)).
Proof. reflexivity. Qed.

(** A read that brings tags: both lists are replaced and the flag falls. *)
Lemma loadTagsResume_success (r : Response) (tagsData : list TagItem) (w : World) :
  ok r = true -> body r = Some tagsData ->
  loadTagsResume (Resolved r) w =
  (Normal tt,
   mkWorld (mkState tagsData tagsData (searchTerm (st w)) (isOpen (st w)) false)
     (out w) (pred (inFlight w)) true).
Proof.
  intros Hok Hb.
  unfold loadTagsResume, tryCatchFinally, bind, awaitFetch, json. simpl.
  rewrite Hok, Hb. reflexivity.
Qed.

(** A read that brings none: one line on the console, the flag falls, and
    the lists stay. *)
Lemma loadTagsResume_failure (o : FetchOutcome) (w : World) :
  isFailure o = true ->
  exists message detail,
    loadTagsResume o w =
    (Normal tt,
     mkWorld (mkState (tags (st w)) (filteredTags (st w)) (searchTerm (st w))
                (isOpen (st w)) false)
       (out w ++ [ConsoleError message detail]) (pred (inFlight w))
       (tagsFresh w)).
Proof.
  destruct o as [e|r]; simpl; intros Hf.
  - do 2 eexists. reflexivity.
  - unfold loadTagsResume, tryCatchFinally, bind, awaitFetch, json. simpl.
    destruct (ok r); simpl in *.
    + destruct (body r); [discriminate|]. do 2 eexists. reflexivity.
    + do 2 eexists. reflexivity.
Qed.

(** No exception leaves the loader, however the read settles. *)
Lemma loadTagsResume_normal (o : FetchOutcome) (w : World) :
  completion (loadTagsResume o) w = Normal tt /\
  isLoading (st (exec (loadTagsResume o) w)) = false.
Proof.
  unfold completion, exec.
  destruct (isFailure o) eqn:Hf.
  - destruct (loadTagsResume_failure o w Hf) as (m & d & ->). auto.
  - destruct o as [e|r]; [discriminate|]. simpl in Hf.
    apply orb_false_iff in Hf as [Hok Hb]. apply negb_false_iff in Hok.
    destruct (body r) as [tagsData|] eqn:Eb; [|discriminate].
    rewrite (loadTagsResume_success r tagsData w Hok Eb). auto.
Qed.

End Loader.

(** ** The component as a whole *)

Section Machine.
Context {caseMapping : CaseMapping}.

Lemma strictEq_refl (a : jsstring) : strictEq a a = true.
Proof. apply strictEq_eq. reflexivity. Qed.

(** What committing a handler's updates does, written out. *)
Lemma runEffects_run (prev : State) (w : World) :
  let s := st w in
  let opened := negb (Bool.eqb (isOpen prev) (isOpen s)) && isOpen s in
  let refilter :=
    negb (strictEq (searchTerm prev) (searchTerm s) && negb (tagsFresh w)) in
  runEffects prev w =
  (Normal tt,
   mkWorld (mkState (tags s)
              (if refilter then visibleSet (tags s) (searchTerm s)
               else filteredTags s)
              (searchTerm s) (isOpen s)
              (if opened then true else isLoading s))
     (if opened then out w ++ [Fetch RESOURCE] else out w)
     (if opened then S (inFlight w) else inFlight w)
     false).
Proof.
  destruct w as [[c v q o l] es n f]. simpl.
  unfold runEffects, bind, getState, getFresh, loadEffect. simpl.
  destruct (Bool.eqb (isOpen prev) o) eqn:Eo; simpl.
  - destruct (strictEq (searchTerm prev) q && negb f); simpl.
    + reflexivity.
    + rewrite filterEffect_run. reflexivity.
  - destruct o; simpl.
    + destruct (strictEq (searchTerm prev) q && negb f); simpl.
      * reflexivity.
      * rewrite filterEffect_run. reflexivity.
    + destruct (strictEq (searchTerm prev) q && negb f); simpl.
      * reflexivity.
      * rewrite filterEffect_run. reflexivity.
Qed.

Lemma step_OpenChange (open : bool) (w : World) :
  Consistent w ->
  let opened := negb (Bool.eqb (isOpen (st w)) open) && open in
  step (OpenChange open) w =
  Some (mkWorld (mkState (tags (st w)) (filteredTags (st w))
                   (searchTerm (st w)) open
                   (if opened then true else isLoading (st w)))
          (if opened then out w ++ [Fetch RESOURCE] else out w)
          (if opened then S (inFlight w) else inFlight w)
          false).
Proof.
  intros [Hf Hv]. unfold step, exec, bind. simpl.
  rewrite runEffects_run. simpl. rewrite strictEq_refl, Hf. reflexivity.
Qed.

Lemma step_InputChange (value : jsstring) (w : World) :
  Consistent w -> isOpen (st w) = true ->
  step (InputChange value) w =
  Some (mkWorld (mkState (tags (st w)) (visibleSet (tags (st w)) value)
                   value true (isLoading (st w)))
          (out w) (inFlight w) false).
Proof.
  intros [Hf Hv] Ho. unfold step, exec, bind. simpl. rewrite Ho.
  rewrite runEffects_run. simpl. rewrite Ho, Hf. simpl.
  destruct (strictEq (searchTerm (st w)) value) eqn:E; simpl.
  - apply strictEq_eq in E. subst value. rewrite Hv. reflexivity.
  - reflexivity.
Qed.

Lemma badgeAt_Some (s : State) (i : nat) (tag : TagItem) :
  badgeAt s i = Some tag ->
  isOpen s = true /\ isLoading s = false /\ nth_error (filteredTags s) i = Some tag.
Proof.
  unfold badgeAt, render, renderBody.
  destruct (isOpen s); [|discriminate].
  destruct (isLoading s); [discriminate|].
  destruct (0 <? length (filteredTags s)); [auto | discriminate].
Qed.

Lemma step_ClickBadge (i : nat) (tag : TagItem) (w : World) :
  Consistent w -> badgeAt (st w) i = Some tag ->
  step (ClickBadge i) w =
  Some (mkWorld (mkState (tags (st w)) (visibleSet (tags (st w)) [])
                   [] false false)
          (out w ++ [OnTagSelect (tagPath tag) (name tag)]) (inFlight w) false).
Proof.
  intros [Hf Hv] Hb. destruct (badgeAt_Some _ _ _ Hb) as (Ho & Hl & _).
  unfold step, exec. cbn [enabled handler]. unfold bind, getState.
  rewrite Hb. simpl.
  rewrite runEffects_run. simpl. rewrite Ho, Hl, Hf. simpl.
  destruct (strictEq (searchTerm (st w)) []) eqn:E; simpl.
  - apply strictEq_eq in E. rewrite Hv, E. reflexivity.
  - reflexivity.
Qed.

Lemma step_Settle_failure (o : FetchOutcome) (w : World) :
  Consistent w -> 0 < inFlight w -> isFailure o = true ->
  exists message detail,
    step (Settle o) w =
    Some (mkWorld (mkState (tags (st w)) (filteredTags (st w))
                     (searchTerm (st w)) (isOpen (st w)) false)
            (out w ++ [ConsoleError message detail]) (pred (inFlight w))
            false).
Proof.
  intros [Hf Hv] Hn Ho.
  destruct (loadTagsResume_failure o w Ho) as (m & d & E).
  exists m, d. unfold step, exec, bind. simpl.
  apply Nat.ltb_lt in Hn. rewrite Hn, E.
  rewrite runEffects_run. simpl.
  rewrite Bool.eqb_reflx, strictEq_refl, Hf. reflexivity.
Qed.

Lemma step_Settle_success (r : Response) (tagsData : list TagItem) (w : World) :
  0 < inFlight w -> ok r = true -> body r = Some tagsData ->
  step (Settle (Resolved r)) w =
  Some (mkWorld (mkState tagsData (visibleSet tagsData (searchTerm (st w)))
                   (searchTerm (st w)) (isOpen (st w)) false)
          (out w) (pred (inFlight w)) false).
Proof.
  intros Hn Hok Hb. unfold step, exec, bind. simpl.
  apply Nat.ltb_lt in Hn. rewrite Hn.
  rewrite (loadTagsResume_success r tagsData w Hok Hb).
  rewrite runEffects_run. simpl.
  rewrite Bool.eqb_reflx, strictEq_refl. reflexivity.
Qed.

Lemma step_enabled (a : Action) (w w' : World) :
  step a w = Some w' -> enabled a w = true.
Proof. unfold step. destruct (enabled a w); [reflexivity | discriminate]. Qed.

Lemma isFailure_false (o : FetchOutcome) :
  isFailure o = false ->
  exists r tagsData, o = Resolved r /\ ok r = true /\ body r = Some tagsData.
Proof.
  destruct o as [e|r]; simpl; [discriminate|]. intros Hf.
  apply orb_false_iff in Hf as [Hok Hb]. apply negb_false_iff in Hok.
  destruct (body r) as [tagsData|] eqn:Eb; [|discriminate]. eauto.
Qed.

Lemma step_Consistent (a : Action) (w w' : World) :
  Consistent w -> step a w = Some w' -> Consistent w'.
Proof.
  intros Hc Hs. pose proof (step_enabled _ _ _ Hs) as He.
  destruct Hc as [Hf Hv] eqn:Ec. clear Ec.
  destruct a as [open|value|i|o]; simpl in He.
  - rewrite step_OpenChange in Hs by (split; assumption).
    injection Hs as <-. split; simpl; auto.
  - rewrite step_InputChange in Hs by (try split; assumption).
    injection Hs as <-. split; simpl; auto.
  - destruct (badgeAt (st w) i) as [tag|] eqn:Eb; [|discriminate].
    rewrite (step_ClickBadge i tag) in Hs by (try split; assumption).
    injection Hs as <-. split; simpl; auto.
  - apply Nat.ltb_lt in He. destruct (isFailure o) eqn:Eo.
    + destruct (step_Settle_failure o w (conj Hf Hv) He Eo) as (m & d & E).
      rewrite E in Hs. injection Hs as <-. split; simpl; auto.
    + apply isFailure_false in Eo as (r & tagsData & -> & Hok & Hb).
      rewrite (step_Settle_success r tagsData w He Hok Hb) in Hs.
      injection Hs as <-. split; simpl; auto.
Qed.

Lemma mounted_Consistent : Consistent mounted.
Proof. split; reflexivity. Qed.

(** The invariant holds in every world the component can reach. *)
Lemma Reachable_Consistent (w : World) : Reachable w -> Consistent w.
Proof.
  induction 1 as [|a w w' _ IH Hs].
  - apply mounted_Consistent.
  - eapply step_Consistent; eauto.
Qed.

Lemma run_Reachable (actions : list Action) (w w' : World) :
  Reachable w -> run actions w = Some w' -> Reachable w'.
Proof.
  revert w. induction actions as [|a rest IH]; simpl; intros w Hr Hrun.
  - injection Hrun as <-. exact Hr.
  - destruct (step a w) as [w1|] eqn:Es; [|discriminate].
    eapply IH; [|exact Hrun]. eapply reach_step; eauto.
Qed.

End Machine.

(** ** Scenarios of the specification, for every case mapping *)

Section Scenarios.
Context {caseMapping : CaseMapping}.

Ltac lower_ascii :=
  rewrite ?visibleSet_eq; cbv [catalog actionTag dramaTag filter name];
  repeat rewrite toLowerCase_ascii by reflexivity.

(** Scenario 1: the query "dra" shows Drama only. *)
Example scenario_dra : visibleSet catalog (lit "dra") = [dramaTag].
Proof. lower_ascii. reflexivity. Qed.

(** Matching ignores case in the query as in the names. *)
Example scenario_upper : visibleSet catalog (lit "ACT") = [actionTag].
Proof. lower_ascii. reflexivity. Qed.

(** Scenario 2: an empty catalog shows nothing. *)
Example scenario_empty (q : jsstring) : visibleSet [] q = [].
Proof. rewrite visibleSet_eq. destruct (strictEq (trim q) []); reflexivity. Qed.

(** Scenario 3: a query of white space shows the whole catalog. *)
Example scenario_blank : visibleSet catalog (lit "   ") = catalog.
Proof. reflexivity. Qed.

(** A query padded with white space is matched with its padding. *)
Example scenario_padded :
  trim (lit " dra ") = lit "dra" /\
  visibleSet catalog (lit " dra ") = [] /\
  visibleSet catalog (trim (lit " dra ")) = [dramaTag].
Proof.
  split; [reflexivity|]. split.
  - lower_ascii. reflexivity.
  - change (trim (lit " dra ")) with (lit "dra"). apply scenario_dra.
Qed.

End Scenarios.

Lemma world_Reachable (actions : list Action) : Reachable (world actions).
Proof.
  unfold world. destruct (run actions mounted) as [w|] eqn:E.
  - eapply run_Reachable; [apply reach_mounted | exact E].
  - apply reach_mounted.
Qed.

(** ** Selecting a tag, closing the dialog *)

Section Selection.
Context {caseMapping : CaseMapping}.

Lemma handleTagClick_run (tag : TagItem) (w : World) :
  handleTagClick tag w =
  (Normal tt,
   mkWorld (mkState (tags (st w)) (filteredTags (st w)) [] false
              (isLoading (st w)))
     (out w ++ [OnTagSelect (tagPath tag) (name tag)]) (inFlight w)
     (tagsFresh w)).
Proof. reflexivity. Qed.

Lemma selections_app (es fs : list Effect) :
  selections (es ++ fs) = selections es ++ selections fs.
Proof. unfold selections. apply flat_map_app. Qed.

(** C3. A click on a badge on screen calls the host's [onTagSelect]
    exactly once, with the derived path and the name of the tag behind the
    badge; the handler completes normally, and afterwards the dialog is
    closed and the query is the empty string, whatever the query was. *)
Theorem click_dispatches (w : World) (i : nat) (tag : TagItem) :
  badgeAt (st w) i = Some tag ->
  exists w',
    step (ClickBadge i) w = Some w' /\
    completion (handleTagClick tag) w = Normal tt /\
    out w' = out w ++ [OnTagSelect (tagPath tag) (name tag)] /\
    selections (out w') = selections (out w) ++ [(tagPath tag, name tag)] /\
    isOpen (st w') = false /\
    searchTerm (st w') = [].
Proof.
  intros Hb. unfold step, exec. cbn [enabled handler].
  unfold bind at 1 2, getState. rewrite Hb. rewrite handleTagClick_run.
  rewrite runEffects_run. cbn [st out isOpen searchTerm snd].
  destruct (badgeAt_Some _ _ _ Hb) as (Ho & _ & _). rewrite Ho.
  eexists. split; [reflexivity|]. simpl.
  repeat split. rewrite selections_app. reflexivity.
Qed.

End Selection.

(** Scenario 5: the click on Action, with a query typed in before. *)
Lemma click_dispatches_witness :
  badgeAt (st (world (searchFor (lit "act")))) 0 = Some actionTag /\
  exists w',
    step (ClickBadge 0) (world (searchFor (lit "act"))) = Some w' /\
    completion (handleTagClick actionTag) (world (searchFor (lit "act")))
      = Normal tt /\
    out w' = out (world (searchFor (lit "act")))
             ++ [OnTagSelect (tagPath actionTag) (name actionTag)] /\
    selections (out w')
      = selections (out (world (searchFor (lit "act"))))
        ++ [(tagPath actionTag, name actionTag)] /\
    isOpen (st w') = false /\
    searchTerm (st w') = [].
Proof.
  split; [vm_compute; reflexivity|].
  apply (click_dispatches (world (searchFor (lit "act"))) 0 actionTag).
  vm_compute. reflexivity.
Defined.

Example scenario_click :
  after (openAndLoad ++ [ClickBadge 0])
    (fun w => (selections (out w), isOpen (st w), searchTerm (st w)))
  = Some ([(lit "/tag/action", lit "Action")], false, []).
Proof. vm_compute. reflexivity. Qed.

Section Closing.
Context {caseMapping : CaseMapping}.

Lemma settles_keep_query (outcomes : list FetchOutcome) (w w2 : World) :
  Reachable w ->
  run (map Settle outcomes) w = Some w2 ->
  Reachable w2 /\
  searchTerm (st w2) = searchTerm (st w) /\
  isOpen (st w2) = isOpen (st w).
Proof.
  revert w. induction outcomes as [|o rest IH]; simpl; intros w Hr Hrun.
  - injection Hrun as <-. auto.
  - destruct (step (Settle o) w) as [w1|] eqn:Es; [|discriminate].
    assert (Reachable w1) as Hr1 by (eapply reach_step; eauto).
    destruct (IH w1 Hr1 Hrun) as (Hr2 & Hq & Ho).
    split; [exact Hr2|]. rewrite Hq, Ho.
    pose proof (step_enabled _ _ _ Es) as He. simpl in He.
    apply Nat.ltb_lt in He. apply Reachable_Consistent in Hr.
    destruct (isFailure o) eqn:Eo.
    + destruct (step_Settle_failure o w Hr He Eo) as (m & d & E).
      rewrite E in Es. injection Es as <-. auto.
    + apply isFailure_false in Eo as (r & tagsData & -> & Hok & Hb).
      rewrite (step_Settle_success r tagsData w He Hok Hb) in Es.
      injection Es as <-. auto.
Qed.

(** C4, as amended. The dialog goes from open to closed in two ways only.
    On a selection the query is reset to the empty string, and the loading
    flag is false (it already was: badges are on screen only when nothing
    is loading). On a dismissal ([onOpenChange] with false) nothing but
    the open state changes: the catalog, the visible set, the query, the
    loading flag, the effects and the pending reads stay as they were.
    So the search term persists to the next opening of the dialog: when
    the dialog is opened again, at once or after pending reads have
    settled, the query is the one that was there at the dismissal. *)
Theorem closing_transitions (a : Action) (w w' : World) :
  Reachable w ->
  step a w = Some w' ->
  isOpen (st w) = true ->
  isOpen (st w') = false ->
  (exists i tag,
     a = ClickBadge i /\ badgeAt (st w) i = Some tag /\
     searchTerm (st w') = [] /\
     isLoading (st w) = false /\ isLoading (st w') = false)
  \/
  (a = OpenChange false /\
   searchTerm (st w') = searchTerm (st w) /\
   isLoading (st w') = isLoading (st w) /\
   tags (st w') = tags (st w) /\
   filteredTags (st w') = filteredTags (st w) /\
   out w' = out w /\
   inFlight w' = inFlight w /\
   (forall outcomes w2,
      run (map Settle outcomes) w' = Some w2 ->
      exists w3,
        step (OpenChange true) w2 = Some w3 /\
        isOpen (st w3) = true /\
        searchTerm (st w3) = searchTerm (st w))).
Proof.
  intros Hreach Hs Ho Hc.
  assert (Reachable w') as Hreach' by (eapply reach_step; eauto).
  pose proof (Reachable_Consistent w Hreach) as Hr.
  pose proof (step_enabled _ _ _ Hs) as He.
  destruct a as [open|value|i|o]; simpl in He.
  - right. rewrite (step_OpenChange open w Hr) in Hs. injection Hs as Hw'.
    assert (open = false) as -> by (rewrite <- Hw' in Hc; exact Hc).
    rewrite Ho in Hw'. simpl in Hw'.
    assert (searchTerm (st w') = searchTerm (st w)) as Hq
      by (rewrite <- Hw'; reflexivity).
    split; [reflexivity|]. split; [exact Hq|].
    split; [rewrite <- Hw'; reflexivity|].
    split; [rewrite <- Hw'; reflexivity|].
    split; [rewrite <- Hw'; reflexivity|].
    split; [rewrite <- Hw'; reflexivity|].
    split; [rewrite <- Hw'; reflexivity|].
    intros outcomes w2 Hrun.
    destruct (settles_keep_query outcomes w' w2 Hreach' Hrun)
      as (Hr2 & Hq2 & Ho2).
    rewrite (step_OpenChange true w2 (Reachable_Consistent w2 Hr2)).
    eexists. split; [reflexivity|]. simpl. split; [reflexivity|].
    rewrite Hq2. exact Hq.
  - exfalso. rewrite (step_InputChange value w Hr Ho) in Hs.
    injection Hs as <-. discriminate.
  - left. destruct (badgeAt (st w) i) as [tag|] eqn:Eb; [|discriminate].
    rewrite (step_ClickBadge i tag w Hr Eb) in Hs. injection Hs as <-.
    destruct (badgeAt_Some _ _ _ Eb) as (_ & Hl & _).
    exists i, tag. simpl. auto.
  - exfalso. apply Nat.ltb_lt in He. destruct (isFailure o) eqn:Eo.
    + destruct (step_Settle_failure o w Hr He Eo) as (m & d & E).
      rewrite E in Hs. injection Hs as <-. simpl in Hc. congruence.
    + apply isFailure_false in Eo as (r & tagsData & -> & Hok & Hb).
      rewrite (step_Settle_success r tagsData w He Hok Hb) in Hs.
      injection Hs as <-. simpl in Hc. congruence.
Qed.

End Closing.

(** A dismissal with "dra" typed in, at the concrete catalog, and the
    next opening. *)
Lemma closing_transitions_witness :
  isOpen (st (world (searchFor (lit "dra")))) = true /\
  isOpen (st (world (searchFor (lit "dra") ++ [OpenChange false]))) = false /\
  searchTerm (st (world (searchFor (lit "dra") ++ [OpenChange false])))
    = searchTerm (st (world (searchFor (lit "dra")))) /\
  tags (st (world (searchFor (lit "dra") ++ [OpenChange false])))
    = tags (st (world (searchFor (lit "dra")))) /\
  filteredTags (st (world (searchFor (lit "dra") ++ [OpenChange false])))
    = filteredTags (st (world (searchFor (lit "dra")))) /\
  exists w3,
    step (OpenChange true)
      (world (searchFor (lit "dra") ++ [OpenChange false])) = Some w3 /\
    isOpen (st w3) = true /\
    searchTerm (st w3) = lit "dra".
Proof.
  split; [vm_compute; reflexivity|]. split; [vm_compute; reflexivity|].
  destruct (closing_transitions (OpenChange false)
              (world (searchFor (lit "dra")))
              (world (searchFor (lit "dra") ++ [OpenChange false])))
    as [(i & tag & E & _) | (_ & Hq & _ & Ht & Hv & _ & _ & Hnext)].
  - apply world_Reachable.
  - vm_compute. reflexivity.
  - vm_compute. reflexivity.
  - vm_compute. reflexivity.
  - discriminate E.
  - split; [exact Hq|]. split; [exact Ht|]. split; [exact Hv|].
    exact (Hnext [] _ eq_refl).
Defined.

(** C4 as stated fails. Dismissed with "dra" typed in, the dialog is
    closed and the query is still "dra", and it is still there when the
    dialog is opened again; dismissed while the first read is pending, the
    dialog is closed and the loading flag is still up. *)
Lemma dismissal_keeps_query_and_flag :
  after (searchFor (lit "dra")) (fun w => isOpen (st w)) = Some true /\
  after (searchFor (lit "dra") ++ [OpenChange false])
    (fun w => (isOpen (st w), searchTerm (st w)))
    = Some (false, lit "dra") /\
  after (searchFor (lit "dra") ++ [OpenChange false; OpenChange true])
    (fun w => (isOpen (st w), searchTerm (st w)))
    = Some (true, lit "dra") /\
  lit "dra" <> [] /\
  after [OpenChange true; OpenChange false]
    (fun w => (isOpen (st w), isLoading (st w)))
    = Some (false, true).
Proof. repeat split; try (vm_compute; reflexivity). discriminate. Qed.

(** ** Loading the catalog *)

Section LoaderClaims.

Lemma diagnostics_app (es fs : list Effect) :
  diagnostics (es ++ fs) = diagnostics es ++ diagnostics fs.
Proof. unfold diagnostics. apply filter_app. Qed.

(** C5, as amended. When the read fails (rejected, a status that is not
    a success, or a body that does not decode), the loader leaves the
    catalog as it was before the load, so empty if nothing was loaded
    before; it writes one diagnostic to the console; the loading flag is
    raised when the load starts and lowered when it ends; and the loader
    completes normally. All but the raising of the flag hold wherever the
    component stands when the read settles. *)
Theorem loadTags_failure (o : FetchOutcome) (w : World) :
  isFailure o = true ->
  let w1 := exec loadTagsStart w in
  let w2 := exec (loadTags o) w in
  w2 = exec (loadTagsResume o) w1 /\
  completion (loadTags o) w = Normal tt /\
  tags (st w2) = tags (st w) /\
  (tags (st w) = [] -> tags (st w2) = []) /\
  (exists message detail,
     out w2 = out w ++ [Fetch RESOURCE; ConsoleError message detail]) /\
  isLoading (st w1) = true /\
  isLoading (st w2) = false /\
  (forall v : World,
     let v' := exec (loadTagsResume o) v in
     completion (loadTagsResume o) v = Normal tt /\
     tags (st v') = tags (st v) /\
     (exists message detail,
        diagnostics (out v')
        = diagnostics (out v) ++ [ConsoleError message detail]) /\
     isLoading (st v') = false).
Proof.
  intros Hf.
  assert (forall v : World,
            exists message detail,
              loadTagsResume o v =
              (Normal tt,
               mkWorld (mkState (tags (st v)) (filteredTags (st v))
                          (searchTerm (st v)) (isOpen (st v)) false)
                 (out v ++ [ConsoleError message detail])
                 (pred (inFlight v)) (tagsFresh v))) as Hres
    by (intros v; apply loadTagsResume_failure, Hf).
  unfold loadTags, exec, completion, bind. rewrite loadTagsStart_run.
  simpl.
  match goal with |- context [loadTagsResume o ?v] =>
    destruct (Hres v) as (m & d & E); rewrite E end.
  simpl. repeat split; auto.
  - exists m, d. rewrite <- app_assoc. reflexivity.
  - destruct (Hres v) as (m' & d' & ->). reflexivity.
  - destruct (Hres v) as (m' & d' & ->). reflexivity.
  - destruct (Hres v) as (m' & d' & E'). exists m', d'. rewrite E'. simpl.
    rewrite diagnostics_app. reflexivity.
  - destruct (Hres v) as (m' & d' & ->). reflexivity.
Qed.

(** Scenario 4: the first load answered with status 500. *)
Lemma loadTags_failure_witness :
  isFailure serverError = true /\
  exec (loadTags serverError) mounted
    = exec (loadTagsResume serverError) (exec loadTagsStart mounted) /\
  completion (loadTags serverError) mounted = Normal tt /\
  tags (st (exec (loadTags serverError) mounted)) = tags (st mounted) /\
  (tags (st mounted) = [] ->
   tags (st (exec (loadTags serverError) mounted)) = []) /\
  (exists message detail,
     out (exec (loadTags serverError) mounted)
     = out mounted ++ [Fetch RESOURCE; ConsoleError message detail]) /\
  isLoading (st (exec loadTagsStart mounted)) = true /\
  isLoading (st (exec (loadTags serverError) mounted)) = false /\
  (forall v : World,
     completion (loadTagsResume serverError) v = Normal tt /\
     tags (st (exec (loadTagsResume serverError) v)) = tags (st v) /\
     (exists message detail,
        diagnostics (out (exec (loadTagsResume serverError) v))
        = diagnostics (out v) ++ [ConsoleError message detail]) /\
     isLoading (st (exec (loadTagsResume serverError) v)) = false).
Proof.
  split; [reflexivity|].
  apply (loadTags_failure serverError mounted). reflexivity.
Defined.

(** The three kinds of failure and what each writes to the console. *)
Example failure_diagnostics :
  diagnostics (out (exec (loadTags offline) mounted))
    = [ConsoleError (lit "Error loading tags:") (Some TypeError)] /\
  diagnostics (out (exec (loadTags serverError) mounted))
    = [ConsoleError (lit "Failed to load tags") None] /\
  diagnostics (out (exec (loadTags notJson) mounted))
    = [ConsoleError (lit "Error loading tags:") (Some SyntaxError)].
Proof. repeat split. Qed.

(** A read that succeeds writes nothing to the console and fills both
    lists. *)
Example success_fills_lists :
  exec (loadTags served) mounted
  = mkWorld (mkState catalog catalog [] false false) [Fetch RESOURCE] 0 true.
Proof. reflexivity. Qed.

End LoaderClaims.

(** C5 as stated fails. After a load that brought the two records, the
    dialog is closed and opened again and the second read is answered
    with status 500: the catalog is not empty, it still holds the two
    records. *)
Lemma failed_reload_not_empty :
  isFailure serverError = true /\
  after (openAndLoad ++ [OpenChange false; OpenChange true; Settle serverError])
    (fun w => tags (st w)) = Some catalog /\
  catalog <> [].
Proof.
  split; [reflexivity|]. split; [vm_compute; reflexivity | discriminate].
Qed.

Section Retention.
Context {caseMapping : CaseMapping}.

(** C9. A load that fails leaves both the catalog and the visible set as
    they were: opening the dialog does not touch them, and neither does
    the failing read when it settles, wherever the component then stands.
    So a catalog loaded earlier is kept when a later load, on opening the
    dialog again, fails. *)
Theorem failed_load_keeps_lists (o : FetchOutcome) (w0 w1 w2 : World) :
  Reachable w0 ->
  isFailure o = true ->
  step (OpenChange true) w0 = Some w1 ->
  step (Settle o) w1 = Some w2 ->
  (tags (st w2) = tags (st w0) /\
   filteredTags (st w2) = filteredTags (st w0)) /\
  (tags (st (exec (loadTags o) w0)) = tags (st w0) /\
   filteredTags (st (exec (loadTags o) w0)) = filteredTags (st w0)) /\
  (forall v v',
     Reachable v -> step (Settle o) v = Some v' ->
     tags (st v') = tags (st v) /\ filteredTags (st v') = filteredTags (st v)).
Proof.
  intros Hr Hf Hopen Hsettle.
  assert (forall v v',
            Reachable v -> step (Settle o) v = Some v' ->
            tags (st v') = tags (st v) /\
            filteredTags (st v') = filteredTags (st v)) as Hany.
  { intros v v' Hv Hs. apply Reachable_Consistent in Hv.
    pose proof (step_enabled _ _ _ Hs) as He. simpl in He.
    apply Nat.ltb_lt in He.
    destruct (step_Settle_failure o v Hv He Hf) as (m & d & E).
    rewrite E in Hs. injection Hs as <-. simpl. auto. }
  split; [|split; [|exact Hany]].
  - assert (Reachable w1) as Hr1 by (eapply reach_step; eauto).
    destruct (Hany w1 w2 Hr1 Hsettle) as [-> ->].
    rewrite (step_OpenChange true w0 (Reachable_Consistent w0 Hr)) in Hopen.
    injection Hopen as <-. simpl. auto.
  - unfold loadTags, exec, bind. rewrite loadTagsStart_run.
    match goal with |- context [loadTagsResume o ?v] =>
      destruct (loadTagsResume_failure o v Hf) as (m & d & ->) end.
    simpl. auto.
Qed.

End Retention.

(** The catalog was loaded and the dialog closed; it is opened again and
    the second read is answered with status 500. *)
Lemma failed_load_keeps_lists_witness :
  tags (st (world (openAndLoad ++ [OpenChange false]))) = catalog /\
  tags (st (world (openAndLoad ++ [OpenChange false; OpenChange true;
                                    Settle serverError])))
    = tags (st (world (openAndLoad ++ [OpenChange false]))) /\
  filteredTags (st (world (openAndLoad ++ [OpenChange false; OpenChange true;
                                            Settle serverError])))
    = filteredTags (st (world (openAndLoad ++ [OpenChange false]))).
Proof.
  split; [vm_compute; reflexivity|].
  refine (proj1 (failed_load_keeps_lists serverError
                   (world (openAndLoad ++ [OpenChange false]))
                   (world (openAndLoad ++ [OpenChange false; OpenChange true]))
                   (world (openAndLoad ++ [OpenChange false; OpenChange true;
                                           Settle serverError]))
                   _ _ _ _)).
  - apply world_Reachable.
  - reflexivity.
  - vm_compute. reflexivity.
  - vm_compute. reflexivity.
Defined.

(** ** The query is matched untrimmed *)

Section Untrimmed.
Context {caseMapping : CaseMapping}.

(** C10. For a query that does not trim to the empty string, the records
    shown are those whose lower-cased name contains the lower-cased query
    as typed, its leading and trailing white space included; trimming is
    used for the emptiness test only. So a record whose name contains the
    trimmed query but not the query itself is not shown. *)
Theorem filter_matches_untrimmed (w : World) :
  trim (searchTerm (st w)) <> [] ->
  let v := filteredTags (st (exec filterEffect w)) in
  v = filter (fun tag => includes (toLowerCase (name tag))
                           (toLowerCase (searchTerm (st w))))
        (tags (st w)) /\
  (forall tag,
     In tag v <-> In tag (tags (st w)) /\ NameContains (searchTerm (st w)) tag) /\
  (forall tag,
     NameContains (trim (searchTerm (st w))) tag ->
     ~ NameContains (searchTerm (st w)) tag ->
     ~ In tag v).
Proof.
  intros Hq. unfold exec. rewrite filterEffect_run. simpl.
  split; [apply visibleSet_filter, Hq|]. split.
  - intros tag. apply visibleSet_In, Hq.
  - intros tag _ Hn Hin. apply (visibleSet_In _ _ tag Hq) in Hin. tauto.
Qed.

End Untrimmed.

(** The query " dra " against the catalog of Action and Drama: nothing is
    shown, although "dra", the query trimmed, is part of "drama". *)
Lemma filter_matches_untrimmed_witness :
  trim (searchTerm (st (world (searchFor (lit " dra "))))) = lit "dra" /\
  includes (toLowerCase (name dramaTag)) (toLowerCase (lit "dra")) = true /\
  filteredTags (st (exec filterEffect (world (searchFor (lit " dra "))))) = [] /\
  (filteredTags (st (exec filterEffect (world (searchFor (lit " dra ")))))
   = filter (fun tag =>
               includes (toLowerCase (name tag))
                 (toLowerCase (searchTerm (st (world (searchFor (lit " dra ")))))))
       (tags (st (world (searchFor (lit " dra "))))) /\
   (forall tag,
      In tag (filteredTags
                (st (exec filterEffect (world (searchFor (lit " dra "))))))
      <-> In tag (tags (st (world (searchFor (lit " dra ")))))
          /\ NameContains (searchTerm (st (world (searchFor (lit " dra "))))) tag) /\
   (forall tag,
      NameContains (trim (searchTerm (st (world (searchFor (lit " dra ")))))) tag ->
      ~ NameContains (searchTerm (st (world (searchFor (lit " dra "))))) tag ->
      ~ In tag (filteredTags
                  (st (exec filterEffect (world (searchFor (lit " dra ")))))))).
Proof.
  split; [vm_compute; reflexivity|].
  split; [vm_compute; reflexivity|].
  split; [vm_compute; reflexivity|].
  apply (filter_matches_untrimmed (world (searchFor (lit " dra ")))).
  vm_compute. discriminate.
Defined.

(** ** The theme *)

Section ThemeFacts.
Import Theme.
Local Open Scope string_scope.

Lemma defines_In (p : Profile) (n : string) :
  defines p n = true <-> In n (tokenNames p).
Proof.
  unfold defines. rewrite existsb_exists. split.
  - intros (m & Hm & E). apply String.eqb_eq in E. subst m. exact Hm.
  - intros Hn. exists n. split; [exact Hn | apply String.eqb_refl].
Qed.

(** C7, as amended. Every token of the [.dark] profile is a token of the
    [:root] profile, which has one more, [radius], a length and not a
    colour. Every token of the [.dark] profile other than [destructive]
    has the same value in both. The two values of [destructive] have the
    same hue and differ in saturation and in lightness. *)
Theorem profiles_agree_but_destructive :
  (forall n, In n (tokenNames dark) -> In n (tokenNames root)) /\
  (forall n, In n (tokenNames root) -> In n (tokenNames dark) \/ n = "radius") /\
  ~ In "radius" (tokenNames dark) /\
  tokenValue "radius" root = Some (Rem 75) /\
  (forall n, In n (tokenNames dark) -> n <> "destructive" ->
     tokenValue n root = tokenValue n dark) /\
  (exists h s1 l1 s2 l2,
     tokenValue "destructive" root = Some (HSL h s1 l1) /\
     tokenValue "destructive" dark = Some (HSL h s2 l2) /\
     s1 <> s2 /\ l1 <> l2).
Proof.
  split; [|split; [|split; [|split; [|split]]]].
  - intros n Hn. apply defines_In.
    unfold tokenNames, dark in Hn. simpl in Hn.
    repeat (destruct Hn as [<-|Hn]; [reflexivity|]). destruct Hn.
  - intros n Hn. unfold tokenNames, root in Hn. simpl in Hn.
    repeat (destruct Hn as [<-|Hn];
            [first [right; reflexivity | left; apply defines_In; reflexivity]|]).
    destruct Hn.
  - intros Hn. apply defines_In in Hn. discriminate.
  - reflexivity.
  - intros n Hn Hne. unfold tokenNames, dark in Hn. simpl in Hn.
    repeat (destruct Hn as [<-|Hn]; [first [reflexivity | congruence]|]).
    destruct Hn.
  - exists 0%N, 842%N, 602%N, 628%N, 306%N.
    repeat split; discriminate.
Qed.

(** C7 as stated fails: the two profiles do not define the same names
    ([radius] is in [:root] only), and the two values of [destructive]
    differ in saturation as well as in lightness. *)
Lemma profiles_differ_beyond_lightness :
  (In "radius" (tokenNames root) /\ ~ In "radius" (tokenNames dark)) /\
  tokenValue "destructive" root = Some (HSL 0 842 602) /\
  tokenValue "destructive" dark = Some (HSL 0 628 306) /\
  (842 <> 628)%N.
Proof.
  split; [split|].
  - apply defines_In. reflexivity.
  - intros Hn. apply defines_In in Hn. discriminate.
  - repeat split. discriminate.
Qed.

End ThemeFacts.

(** ** The visible set as a function of catalog and query *)

Section Purity.
Context {caseMapping : CaseMapping}.

(** C6. The visible set the filter effect computes depends on the catalog
    and the query only: two runs on the same catalog and query give the
    same sequence, running the effect again changes nothing, the effect
    touches no other part of the component, and its result picks entries
    of the catalog at increasing positions, each of which matches the
    query (or the query is blank). In every world the component can
    reach, the visible set on display already is that result. *)
Theorem filterEffect_pure (w1 w2 : World) :
  tags (st w1) = tags (st w2) ->
  searchTerm (st w1) = searchTerm (st w2) ->
  let w1' := exec filterEffect w1 in
  filteredTags (st w1') = filteredTags (st (exec filterEffect w2)) /\
  exec filterEffect w1' = w1' /\
  completion filterEffect w1 = Normal tt /\
  (tags (st w1') = tags (st w1) /\ searchTerm (st w1') = searchTerm (st w1) /\
   isOpen (st w1') = isOpen (st w1) /\ isLoading (st w1') = isLoading (st w1) /\
   out w1' = out w1) /\
  (exists idx, PicksAt idx (tags (st w1)) (filteredTags (st w1'))) /\
  (forall tag, In tag (filteredTags (st w1')) ->
     In tag (tags (st w1)) /\
     (trim (searchTerm (st w1)) = [] \/ NameContains (searchTerm (st w1)) tag)) /\
  (Reachable w1 -> filteredTags (st w1) = filteredTags (st w1')).
Proof.
  intros Ht Hq. unfold exec, completion. rewrite !filterEffect_run. simpl.
  rewrite Ht, Hq.
  split; [reflexivity|]. split; [reflexivity|]. split; [reflexivity|].
  split; [auto|]. split; [apply visibleSet_picks|].
  split; [|intros Hr; rewrite <- Ht, <- Hq; apply Reachable_Consistent, Hr].
  intros tag Hin. split.
  - destruct (visibleSet_picks (tags (st w2)) (searchTerm (st w2))) as [idx Hp].
    eapply picks_In; eauto.
  - destruct (strictEq (trim (searchTerm (st w2))) []) eqn:E.
    + left. apply strictEq_nil, E.
    + right. eapply visibleSet_In; eauto.
      intros E'. apply strictEq_nil in E'. congruence.
Qed.

End Purity.

(** Two worlds with the same catalog and query, one with the dialog open
    and one with it dismissed. *)
Lemma filterEffect_pure_witness :
  filteredTags (st (exec filterEffect (world (searchFor (lit "dra")))))
  = filteredTags
      (st (exec filterEffect
             (world (searchFor (lit "dra") ++ [OpenChange false])))) /\
  isOpen (st (world (searchFor (lit "dra"))))
  <> isOpen (st (world (searchFor (lit "dra") ++ [OpenChange false]))).
Proof.
  split.
  - refine (proj1 (filterEffect_pure
                     (world (searchFor (lit "dra")))
                     (world (searchFor (lit "dra") ++ [OpenChange false]))
                     _ _)).
    + vm_compute. reflexivity.
    + vm_compute. reflexivity.
  - vm_compute. discriminate.
Defined.

(* ===================================================================== *)
(** * Part III: further properties of the component                       *)
(* ===================================================================== *)

Import Shell.

(** ** The keys of the badges *)

Section Keys.

Lemma digits_no_hyphen (u : Decimal.uint) : ~ In 45%N (digits u).
Proof.
  induction u; simpl; try tauto;
    intros [E|H]; try discriminate; auto.
Qed.

Lemma digits_inj (u v : Decimal.uint) : digits u = digits v -> u = v.
Proof.
  revert v. induction u; intros v; destruct v; simpl; intros E;
    try discriminate; try reflexivity;
    injection E as E; f_equal; auto.
Qed.

Lemma numberToString_inj (i j : nat) :
  numberToString i = numberToString j -> i = j.
Proof.
  unfold numberToString. intros E. apply digits_inj in E.
  rewrite <- (DecimalNat.Unsigned.of_to i), <- (DecimalNat.Unsigned.of_to j).
  rewrite E. reflexivity.
Qed.

(** A string is cut in one way only at its last hyphen. *)
Lemma cut_at_last_hyphen (a b d e : jsstring) :
  ~ In 45%N d -> ~ In 45%N e ->
  a ++ 45%N :: d = b ++ 45%N :: e -> a = b /\ d = e.
Proof.
  intros Hd He. revert b.
  induction a as [|x a IH]; intros [|y b]; simpl; intros E.
  - injection E as E. auto.
  - injection E as <- E. exfalso. apply Hd. rewrite E.
    apply in_or_app. right. left. reflexivity.
  - injection E as -> E. exfalso. apply He. rewrite <- E.
    apply in_or_app. right. left. reflexivity.
  - injection E as -> E. destruct (IH b E) as [-> ->]. auto.
Qed.

Lemma badgeKey_index (t u : TagItem) (i j : nat) :
  badgeKey t i = badgeKey u j -> name t = name u /\ i = j.
Proof.
  unfold badgeKey, numberToString. change (lit "-") with [45%N]. simpl.
  intros E. apply cut_at_last_hyphen in E; try apply digits_no_hyphen.
  destruct E as [En Ed]. split; [exact En|].
  apply numberToString_inj. exact Ed.
Qed.

Lemma mapIndexed_from (k : nat) (items : list TagItem) (key : jsstring) :
  In key (mapIndexed badgeKey k items) ->
  exists t j, key = badgeKey t j /\ k <= j.
Proof.
  revert k. induction items as [|t items IH]; simpl; intros k; [tauto|].
  intros [<-|Hin].
  - exists t, k. auto.
  - destruct (IH _ Hin) as (u & j & -> & Hj). exists u, j. split; [auto|lia].
Qed.

(** X1. The keys React is given for the badges, [`${tag.name}-${index}`],
    are pairwise different whatever the names are: also for records with
    the same name, and for names that contain hyphens or digits. *)
Theorem badgeKeys_NoDup (items : list TagItem) : NoDup (badgeKeys items).
Proof.
  unfold badgeKeys. generalize 0.
  induction items as [|t items IH]; simpl; intros k; constructor.
  - intros Hin. apply mapIndexed_from in Hin as (u & j & E & Hj).
    apply badgeKey_index in E as [_ ->]. lia.
  - apply IH.
Qed.

Example badgeKeys_same_name :
  badgeKeys [actionTag; actionTag]
  = [lit "Action-0"; lit "Action-1"].
Proof. reflexivity. Qed.

End Keys.

(** ** More on the filter engine *)

Section FilterMore.
Context {caseMapping : CaseMapping}.

Lemma Substring_refl (s : jsstring) : Substring s s.
Proof. exists [], []. simpl. rewrite app_nil_r. reflexivity. Qed.

Lemma Substring_trans (a b c : jsstring) :
  Substring a b -> Substring b c -> Substring a c.
Proof.
  intros (p & q & ->) (p' & q' & ->).
  exists (p' ++ p), (q ++ q'). rewrite <- !app_assoc. reflexivity.
Qed.

Lemma filter_filter_narrow {A} (p1 p2 : A -> bool) (c : list A) :
  (forall x, p2 x = true -> p1 x = true) ->
  filter p2 (filter p1 c) = filter p2 c.
Proof.
  intros Himp. induction c as [|x c IH]; simpl; [reflexivity|].
  destruct (p1 x) eqn:E1; simpl.
  - rewrite IH. reflexivity.
  - destruct (p2 x) eqn:E2; [|exact IH].
    apply Himp in E2. congruence.
Qed.

(** X2. Refining the query never brings a record back. If the lower-cased
    query [q1] is part of the lower-cased query [q2] and [q2] is not
    blank, then filtering by [q2] what is visible under [q1] gives the
    same sequence as filtering the whole catalog by [q2]; so every record
    visible under [q2] is visible under [q1]. *)
Theorem visibleSet_narrows (c : list TagItem) (q1 q2 : jsstring) :
  trim q2 <> [] ->
  Substring (toLowerCase q1) (toLowerCase q2) ->
  visibleSet (visibleSet c q1) q2 = visibleSet c q2 /\
  (forall tag, In tag (visibleSet c q2) -> In tag (visibleSet c q1)).
Proof.
  intros Hq2 Hsub.
  assert (visibleSet (visibleSet c q1) q2 = visibleSet c q2) as E.
  { rewrite !(visibleSet_filter _ q2 Hq2).
    rewrite (visibleSet_eq c q1).
    destruct (strictEq (trim q1) []); [reflexivity|].
    apply filter_filter_narrow. intros tag Ht.
    apply includes_spec. apply includes_spec in Ht.
    eapply Substring_trans; eauto. }
  split; [exact E|].
  intros tag Hin. rewrite <- E in Hin.
  apply (visibleSet_In _ _ _ Hq2) in Hin. tauto.
Qed.

(** X3. A record of the catalog is visible under every query that equals
    its name up to case: typing a tag's name, in any case, finds it. *)
Theorem visibleSet_finds_name (c : list TagItem) (q : jsstring) (tag : TagItem) :
  In tag c ->
  toLowerCase q = toLowerCase (name tag) ->
  In tag (visibleSet c q).
Proof.
  intros Hin E. rewrite visibleSet_eq.
  destruct (strictEq (trim q) []); [exact Hin|].
  apply filter_In. split; [exact Hin|].
  apply includes_spec. rewrite E. apply Substring_refl.
Qed.

(** X4. Each record is judged on its own: the visible set of two catalogs
    put one after the other is the two visible sets put one after the
    other, and the visible set is never longer than the catalog. *)
Theorem visibleSet_app (c1 c2 : list TagItem) (q : jsstring) :
  visibleSet (c1 ++ c2) q = visibleSet c1 q ++ visibleSet c2 q /\
  length (visibleSet c1 q) <= length c1.
Proof.
  rewrite !visibleSet_eq.
  destruct (strictEq (trim q) []); split; auto using filter_app, filter_length_le.
Qed.

End FilterMore.

(** The query "ma" refines "a": Drama alone stays. *)
Lemma visibleSet_narrows_witness :
  visibleSet (visibleSet catalog (lit "a")) (lit "ma")
    = visibleSet catalog (lit "ma") /\
  (forall tag, In tag (visibleSet catalog (lit "ma")) ->
               In tag (visibleSet catalog (lit "a"))) /\
  visibleSet catalog (lit "ma") = [dramaTag] /\
  visibleSet catalog (lit "a") = catalog.
Proof.
  assert (visibleSet (visibleSet catalog (lit "a")) (lit "ma")
            = visibleSet catalog (lit "ma") /\
          (forall tag, In tag (visibleSet catalog (lit "ma")) ->
                       In tag (visibleSet catalog (lit "a")))) as [H1 H2].
  { apply (visibleSet_narrows catalog (lit "a") (lit "ma")).
    - vm_compute. discriminate.
    - exists (lit "m"), []. reflexivity. }
  repeat split; auto.
Defined.

(** "DRAMA" typed in capitals finds Drama. *)
Lemma visibleSet_finds_name_witness :
  In dramaTag (visibleSet catalog (lit "DRAMA")).
Proof.
  apply (visibleSet_finds_name catalog (lit "DRAMA") dramaTag).
  - right. left. reflexivity.
  - reflexivity.
Defined.

(** ** More on loading *)

Section LoadingMore.
Context {caseMapping : CaseMapping}.

(** X5. A read that succeeds replaces the catalog by the records read and
    leaves on screen those of them that match the query as it stands when
    the read settles (all of them for a blank query), although the loader
    itself writes the unfiltered records into [filteredTags]: the filter
    effect runs on the new catalog before anything else happens. The
    flag falls, the query and the open state stay, and neither the
    console nor the host hears of it. This holds with the dialog open or
    closed. *)
Theorem successful_load_filters
    (r : Response) (tagsData : list TagItem) (w w' : World) :
  ok r = true ->
  body r = Some tagsData ->
  step (Settle (Resolved r)) w = Some w' ->
  tags (st w') = tagsData /\
  filteredTags (st w') = visibleSet tagsData (searchTerm (st w)) /\
  (trim (searchTerm (st w)) = [] -> filteredTags (st w') = tagsData) /\
  (trim (searchTerm (st w)) <> [] ->
   ExactlyThose (NameContains (searchTerm (st w))) tagsData
     (filteredTags (st w'))) /\
  filteredTags (st (exec (loadTagsResume (Resolved r)) w)) = tagsData /\
  searchTerm (st w') = searchTerm (st w) /\
  isOpen (st w') = isOpen (st w) /\
  isLoading (st w') = false /\
  out w' = out w.
Proof.
  intros Hok Hb Hs. pose proof (step_enabled _ _ _ Hs) as He. simpl in He.
  apply Nat.ltb_lt in He.
  rewrite (step_Settle_success r tagsData w He Hok Hb) in Hs.
  injection Hs as <-. simpl.
  unfold exec. rewrite (loadTagsResume_success r tagsData w Hok Hb). simpl.
  repeat split.
  - apply visibleSet_blank.
  - apply visibleSet_exactly.
Qed.

Lemma step_flag (a : Action) (w w' : World) :
  Consistent w ->
  (isLoading (st w) = true -> 0 < inFlight w) ->
  step a w = Some w' ->
  isLoading (st w') = true -> 0 < inFlight w'.
Proof.
  intros Hc Hinv Hs. pose proof (step_enabled _ _ _ Hs) as He.
  destruct a as [open|value|i|o]; simpl in He.
  - rewrite (step_OpenChange open w Hc) in Hs. injection Hs as <-. simpl.
    destruct (negb (Bool.eqb (isOpen (st w)) open) && open); [lia | exact Hinv].
  - rewrite (step_InputChange value w Hc He) in Hs. injection Hs as <-.
    exact Hinv.
  - destruct (badgeAt (st w) i) as [tag|] eqn:Eb; [|discriminate].
    rewrite (step_ClickBadge i tag w Hc Eb) in Hs. injection Hs as <-.
    simpl. discriminate.
  - apply Nat.ltb_lt in He. destruct (isFailure o) eqn:Eo.
    + destruct (step_Settle_failure o w Hc He Eo) as (m & d & E).
      rewrite E in Hs. injection Hs as <-. simpl. discriminate.
    + apply isFailure_false in Eo as (r & tagsData & -> & Hok & Hb).
      rewrite (step_Settle_success r tagsData w He Hok Hb) in Hs.
      injection Hs as <-. simpl. discriminate.
Qed.

(** X6. The loading flag is up only while a read is pending: in every
    world the component can reach, [isLoading] true means that at least
    one read has not settled, and so do the placeholders on screen. *)
Theorem loading_means_pending (w : World) :
  Reachable w ->
  (isLoading (st w) = true -> 0 < inFlight w) /\
  (forall cells, render (st w) = Some (Skeleton cells) ->
                 cells = 20 /\ 0 < inFlight w).
Proof.
  intros Hr.
  assert (isLoading (st w) = true -> 0 < inFlight w) as Hflag.
  { induction Hr as [|a w w' Hr IH Hs].
    - discriminate.
    - eapply step_flag; eauto. apply Reachable_Consistent, Hr. }
  split; [exact Hflag|].
  intros cells. unfold render, renderBody.
  destruct (isOpen (st w)); [|discriminate].
  destruct (isLoading (st w)).
  - intros [= <-]. auto.
  - destruct (0 <? length (filteredTags (st w))); discriminate.
Qed.

(** X7. Opening the closed dialog starts exactly one read of
    ['/tags.json'], raises the loading flag and puts the twenty
    placeholders on screen, whatever was loaded before; the catalog, the
    visible set and the query are not touched. *)
Theorem opening_starts_one_read (w : World) :
  Reachable w ->
  isOpen (st w) = false ->
  exists w',
    step (OpenChange true) w = Some w' /\
    out w' = out w ++ [Fetch RESOURCE] /\
    inFlight w' = S (inFlight w) /\
    isLoading (st w') = true /\
    render (st w') = Some (Skeleton 20) /\
    tags (st w') = tags (st w) /\
    filteredTags (st w') = filteredTags (st w) /\
    searchTerm (st w') = searchTerm (st w).
Proof.
  intros Hr Ho. apply Reachable_Consistent in Hr.
  rewrite (step_OpenChange true w Hr), Ho. simpl.
  eexists. split; [reflexivity|]. simpl. repeat split.
Qed.

End LoadingMore.

(** The catalog was loaded and the dialog dismissed; the second read
    brings one record only, with "dra" still in the search field. *)
Lemma successful_load_filters_witness :
  tags (st (world (searchFor (lit "dra")
                   ++ [OpenChange false; OpenChange true;
                       Settle (Resolved (mkResponse 200 (Some [actionTag])))])))
    = [actionTag] /\
  filteredTags
    (st (world (searchFor (lit "dra")
                ++ [OpenChange false; OpenChange true;
                    Settle (Resolved (mkResponse 200 (Some [actionTag])))])))
    = [].
Proof.
  destruct (successful_load_filters
              (mkResponse 200 (Some [actionTag])) [actionTag]
              (world (searchFor (lit "dra")
                      ++ [OpenChange false; OpenChange true]))
              (world (searchFor (lit "dra")
                      ++ [OpenChange false; OpenChange true;
                          Settle (Resolved (mkResponse 200 (Some [actionTag])))]))
              eq_refl eq_refl)
    as (Ht & Hv & _).
  - vm_compute. reflexivity.
  - split; [exact Ht|]. rewrite Hv. vm_compute. reflexivity.
Defined.

(** The dialog just opened for the first time. *)
Lemma loading_means_pending_witness :
  isLoading (st (world [OpenChange true])) = true /\
  0 < inFlight (world [OpenChange true]).
Proof.
  split; [vm_compute; reflexivity|].
  refine (proj1 (loading_means_pending (world [OpenChange true]) _) _).
  - apply world_Reachable.
  - vm_compute. reflexivity.
Defined.

(** Opening again after a load and a dismissal. *)
Lemma opening_starts_one_read_witness :
  exists w',
    step (OpenChange true) (world (openAndLoad ++ [OpenChange false]))
      = Some w' /\
    out w' = out (world (openAndLoad ++ [OpenChange false]))
             ++ [Fetch RESOURCE] /\
    inFlight w' = S (inFlight (world (openAndLoad ++ [OpenChange false]))) /\
    isLoading (st w') = true /\
    render (st w') = Some (Skeleton 20) /\
    tags (st w') = tags (st (world (openAndLoad ++ [OpenChange false]))) /\
    filteredTags (st w')
      = filteredTags (st (world (openAndLoad ++ [OpenChange false]))) /\
    searchTerm (st w')
      = searchTerm (st (world (openAndLoad ++ [OpenChange false]))).
Proof.
  apply (opening_starts_one_read (world (openAndLoad ++ [OpenChange false]))).
  - apply world_Reachable.
  - vm_compute. reflexivity.
Defined.

(** ** What each event makes the component do to the outside *)

Section Emissions.
Context {caseMapping : CaseMapping}.

Lemma step_out (a : Action) (w w' : World) :
  Consistent w ->
  step a w = Some w' ->
  match a with
  | OpenChange open =>
      out w' = out w ++ (if negb (isOpen (st w)) && open
                         then [Fetch RESOURCE] else [])
  | InputChange _ => out w' = out w
  | ClickBadge i =>
      exists tag, badgeAt (st w) i = Some tag /\
                  out w' = out w ++ [OnTagSelect (tagPath tag) (name tag)]
  | Settle o =>
      if isFailure o
      then exists message detail, out w' = out w ++ [ConsoleError message detail]
      else out w' = out w
  end.
Proof.
  intros Hc Hs. pose proof (step_enabled _ _ _ Hs) as He.
  destruct a as [open|value|i|o]; simpl in He.
  - rewrite (step_OpenChange open w Hc) in Hs. injection Hs as <-. simpl.
    destruct (isOpen (st w)), open; simpl; rewrite ?app_nil_r; reflexivity.
  - rewrite (step_InputChange value w Hc He) in Hs. injection Hs as <-.
    reflexivity.
  - destruct (badgeAt (st w) i) as [tag|] eqn:Eb; [|discriminate].
    rewrite (step_ClickBadge i tag w Hc Eb) in Hs. injection Hs as <-.
    exists tag. auto.
  - apply Nat.ltb_lt in He. destruct (isFailure o) eqn:Eo.
    + destruct (step_Settle_failure o w Hc He Eo) as (m & d & E).
      rewrite E in Hs. injection Hs as <-. exists m, d. reflexivity.
    + apply isFailure_false in Eo as (r & tagsData & -> & Hok & Hb).
      rewrite (step_Settle_success r tagsData w He Hok Hb) in Hs.
      injection Hs as <-. reflexivity.
Qed.

Lemma fetches_app (es fs : list Effect) :
  fetches (es ++ fs) = fetches es ++ fetches fs.
Proof. unfold fetches. apply flat_map_app. Qed.

(** X8. The network is read only when the dialog goes from closed to
    open, and then once, from ['/tags.json']: no other event starts a
    read (not typing, not a click, not a read settling, not a request to
    open a dialog that is open), and nothing is kept from one opening to
    the next to spare the read. *)
Theorem reads_only_on_opening (a : Action) (w w' : World) :
  Reachable w ->
  step a w = Some w' ->
  fetches (out w') =
  fetches (out w) ++
  match a with
  | OpenChange true => if isOpen (st w) then [] else [RESOURCE]
  | _ => []
  end.
Proof.
  intros Hr Hs. apply Reachable_Consistent in Hr.
  pose proof (step_out a w w' Hr Hs) as Ho.
  destruct a as [open|value|i|o].
  - rewrite Ho, fetches_app.
    destruct (isOpen (st w)), open; reflexivity.
  - rewrite Ho, app_nil_r. reflexivity.
  - destruct Ho as (tag & _ & ->). rewrite fetches_app. reflexivity.
  - destruct (isFailure o).
    + destruct Ho as (m & d & ->). rewrite fetches_app. reflexivity.
    + rewrite Ho, app_nil_r. reflexivity.
Qed.

Lemma step_selections (a : Action) (w w' : World) :
  Consistent w ->
  step a w = Some w' ->
  length (selections (out w'))
  = length (selections (out w)) + clicks [a].
Proof.
  intros Hc Hs. pose proof (step_out a w w' Hc Hs) as Ho.
  destruct a as [open|value|i|o]; unfold clicks; simpl.
  - rewrite Ho, selections_app.
    destruct (negb (isOpen (st w)) && open); simpl;
      rewrite ?app_nil_r; lia.
  - rewrite Ho. lia.
  - destruct Ho as (tag & _ & ->). rewrite selections_app, length_app.
    reflexivity.
  - destruct (isFailure o).
    + destruct Ho as (m & d & ->). rewrite selections_app. simpl.
      rewrite app_nil_r. lia.
    + rewrite Ho. lia.
Qed.

(** X9. The host's callback is called once for each click on a badge and
    at no other time: over any sequence of events, the number of calls
    grows by the number of clicks in it. A load, failed or not, a
    dismissal or an edit of the query never calls it. *)
Theorem callback_once_per_click (actions : list Action) (w w' : World) :
  Reachable w ->
  run actions w = Some w' ->
  length (selections (out w'))
  = length (selections (out w)) + clicks actions.
Proof.
  revert w. induction actions as [|a rest IH]; simpl; intros w Hr Hrun.
  - injection Hrun as <-. unfold clicks. simpl. lia.
  - destruct (step a w) as [w1|] eqn:Es; [|discriminate].
    assert (Reachable w1) as Hr1 by (eapply reach_step; eauto).
    rewrite (IH w1 Hr1 Hrun).
    rewrite (step_selections a w w1 (Reachable_Consistent w Hr) Es).
    unfold clicks. simpl.
    destruct a; simpl; lia.
Qed.

(** X10. Only the last edit of the query counts: typing [q1] and then
    [q2] leaves the component exactly where typing [q2] at once leaves
    it. *)
Theorem typing_last_wins (q1 q2 : jsstring) (w w1 w2 : World) :
  Reachable w ->
  step (InputChange q1) w = Some w1 ->
  step (InputChange q2) w1 = Some w2 ->
  step (InputChange q2) w = Some w2 /\
  searchTerm (st w2) = q2 /\
  filteredTags (st w2) = visibleSet (tags (st w)) q2.
Proof.
  intros Hr H1 H2.
  assert (Reachable w1) as Hr1 by (eapply reach_step; eauto).
  pose proof (step_enabled _ _ _ H1) as He. simpl in He.
  pose proof (step_enabled _ _ _ H2) as He1. simpl in He1.
  apply Reachable_Consistent in Hr. apply Reachable_Consistent in Hr1.
  rewrite (step_InputChange q2 w Hr He).
  rewrite (step_InputChange q2 w1 Hr1 He1) in H2.
  rewrite (step_InputChange q1 w Hr He) in H1.
  injection H1 as <-. simpl in H2. injection H2 as <-. simpl. auto.
Qed.

End Emissions.

(** Dismissing the loaded dialog reads nothing. *)
Lemma reads_only_on_opening_witness :
  fetches (out (world (openAndLoad ++ [OpenChange false])))
  = fetches (out (world openAndLoad)) ++ [].
Proof.
  apply (reads_only_on_opening (OpenChange false)
           (world openAndLoad) (world (openAndLoad ++ [OpenChange false]))).
  - apply world_Reachable.
  - vm_compute. reflexivity.
Defined.

(** Open, load, search, click, open again, fail to load: one call. *)
Lemma callback_once_per_click_witness :
  length (selections
            (out (world (searchFor (lit "act")
                         ++ [ClickBadge 0; OpenChange true;
                             Settle serverError]))))
  = length (selections (out mounted))
    + clicks (searchFor (lit "act")
              ++ [ClickBadge 0; OpenChange true; Settle serverError]) /\
  clicks (searchFor (lit "act")
          ++ [ClickBadge 0; OpenChange true; Settle serverError]) = 1.
Proof.
  split; [|reflexivity].
  apply (callback_once_per_click
           (searchFor (lit "act")
            ++ [ClickBadge 0; OpenChange true; Settle serverError])
           mounted).
  - apply reach_mounted.
  - vm_compute. reflexivity.
Defined.

(** "drx" typed, then corrected to "dra". *)
Lemma typing_last_wins_witness :
  step (InputChange (lit "dra")) (world openAndLoad)
    = Some (world (openAndLoad ++ [InputChange (lit "drx");
                                   InputChange (lit "dra")])) /\
  searchTerm (st (world (openAndLoad ++ [InputChange (lit "drx");
                                         InputChange (lit "dra")])))
    = lit "dra" /\
  filteredTags (st (world (openAndLoad ++ [InputChange (lit "drx");
                                           InputChange (lit "dra")])))
    = visibleSet (tags (st (world openAndLoad))) (lit "dra").
Proof.
  apply (typing_last_wins (lit "drx") (lit "dra")
           (world openAndLoad)
           (world (openAndLoad ++ [InputChange (lit "drx")]))
           (world (openAndLoad ++ [InputChange (lit "drx");
                                   InputChange (lit "dra")]))).
  - apply world_Reachable.
  - vm_compute. reflexivity.
  - vm_compute. reflexivity.
Defined.

(** ** What is on screen *)

Section Screen.
Context {caseMapping : CaseMapping}.

Lemma length_zero_nil {A} (l : list A) : (0 <? length l) = false -> l = [].
Proof. destruct l; [reflexivity | discriminate]. Qed.

(** X11. When the message "No tags found matching ..." is on screen, it
    quotes the query as it stands, nothing is loading, the footer is
    absent, and the message is true: no record of the catalog matches the
    query (which, if the catalog has a record at all, is not blank). *)
Theorem empty_message_is_true (w : World) (term : jsstring) :
  Reachable w ->
  render (st w) = Some (NoTagsFound term) ->
  term = searchTerm (st w) /\
  isLoading (st w) = false /\
  footer (st w) = None /\
  (forall tag, In tag (tags (st w)) ->
     trim (searchTerm (st w)) <> [] /\ ~ NameContains (searchTerm (st w)) tag).
Proof.
  intros Hr. apply Reachable_Consistent in Hr as [_ Hv].
  unfold render, footer, renderFooter, renderBody.
  destruct (isOpen (st w)); [|discriminate].
  destruct (isLoading (st w)); [discriminate|].
  destruct (0 <? length (filteredTags (st w))) eqn:El; [discriminate|].
  intros [= <-]. repeat split.
  - intros Hq. apply length_zero_nil in El. rewrite Hv in El.
    rewrite (visibleSet_blank _ _ Hq) in El. rewrite El in H. destruct H.
  - intros Hn. apply length_zero_nil in El. rewrite Hv in El.
    destruct (strictEq (trim (searchTerm (st w))) []) eqn:Eq.
    + apply strictEq_nil in Eq. rewrite (visibleSet_blank _ _ Eq) in El.
      rewrite El in H. destruct H.
    + assert (trim (searchTerm (st w)) <> []) as Hq
        by (intros E; apply strictEq_nil in E; congruence).
      assert (In tag (visibleSet (tags (st w)) (searchTerm (st w)))) as Hin
        by (apply visibleSet_In; auto).
      rewrite El in Hin. destruct Hin.
Qed.

(** X12. When badges are on screen they are the visible set, which is not
    empty; each badge stands for a record of the catalog that matches the
    query (or the query is blank); and the footer counts them against the
    catalog, "Showing N of M" with N at least 1 and at most M. *)
Theorem badges_are_the_matches (w : World) (items : list TagItem) :
  Reachable w ->
  render (st w) = Some (Badges items) ->
  items = visibleSet (tags (st w)) (searchTerm (st w)) /\
  items <> [] /\
  footer (st w) = Some (length items, length (tags (st w))) /\
  1 <= length items <= length (tags (st w)) /\
  (forall i tag, badgeAt (st w) i = Some tag ->
     nth_error items i = Some tag /\
     In tag (tags (st w)) /\
     (trim (searchTerm (st w)) = [] \/ NameContains (searchTerm (st w)) tag)).
Proof.
  intros Hr Hrender. apply Reachable_Consistent in Hr as [_ Hv].
  assert (isOpen (st w) = true /\ isLoading (st w) = false /\
          (0 <? length (filteredTags (st w))) = true /\
          items = filteredTags (st w)) as (Ho & Hl & Hn & ->).
  { revert Hrender. unfold render, renderBody.
    destruct (isOpen (st w)); [|discriminate].
    destruct (isLoading (st w)); [discriminate|].
    destruct (0 <? length (filteredTags (st w))); [|discriminate].
    intros [= <-]. auto. }
  apply Nat.ltb_lt in Hn.
  split; [exact Hv|]. split; [intros E; rewrite E in Hn; simpl in Hn; lia|].
  split; [unfold footer, renderFooter;
          rewrite Ho, (proj2 (Nat.ltb_lt _ _) Hn); reflexivity|].
  split.
  - split; [lia|]. rewrite Hv, visibleSet_eq.
    destruct (strictEq (trim (searchTerm (st w))) []);
      auto using filter_length_le.
  - intros i tag Hb. apply badgeAt_Some in Hb as (_ & _ & Hnth).
    split; [exact Hnth|]. apply nth_error_In in Hnth. rewrite Hv in Hnth.
    destruct (strictEq (trim (searchTerm (st w))) []) eqn:Eq.
    + apply strictEq_nil in Eq. rewrite (visibleSet_blank _ _ Eq) in Hnth. auto.
    + assert (trim (searchTerm (st w)) <> []) as Hq
        by (intros E; apply strictEq_nil in E; congruence).
      apply (visibleSet_In _ _ _ Hq) in Hnth. tauto.
Qed.

(** X13. The footer does not look at the loading flag: while the dialog is
    open it is present exactly when the visible set is not empty, also
    while the placeholders hide the badges, and its two numbers are the
    lengths of the visible set and of the catalog, the first never above
    the second. *)
Theorem footer_counts (w : World) :
  Reachable w ->
  isOpen (st w) = true ->
  (footer (st w) = None <-> filteredTags (st w) = []) /\
  (forall n m, footer (st w) = Some (n, m) ->
     n = length (filteredTags (st w)) /\ m = length (tags (st w)) /\
     1 <= n <= m).
Proof.
  intros Hr Ho. apply Reachable_Consistent in Hr as [_ Hv].
  unfold footer, renderFooter. rewrite Ho.
  destruct (0 <? length (filteredTags (st w))) eqn:El.
  - apply Nat.ltb_lt in El. split.
    + split; [discriminate|]. intros E. rewrite E in El. simpl in El. lia.
    + intros n m [= <- <-]. repeat split; [lia|].
      rewrite Hv. rewrite visibleSet_eq.
      destruct (strictEq (trim (searchTerm (st w))) []);
        auto using filter_length_le.
  - split.
    + split; [intros _; apply length_zero_nil, El | reflexivity].
    + intros n m. discriminate.
Qed.

End Screen.

(** A query that matches nothing. *)
Lemma empty_message_is_true_witness :
  lit "xyz" = searchTerm (st (world (searchFor (lit "xyz")))) /\
  isLoading (st (world (searchFor (lit "xyz")))) = false /\
  footer (st (world (searchFor (lit "xyz")))) = None /\
  (forall tag, In tag (tags (st (world (searchFor (lit "xyz"))))) ->
     trim (searchTerm (st (world (searchFor (lit "xyz"))))) <> [] /\
     ~ NameContains (searchTerm (st (world (searchFor (lit "xyz"))))) tag).
Proof.
  apply (empty_message_is_true (world (searchFor (lit "xyz"))) (lit "xyz")).
  - apply world_Reachable.
  - vm_compute. reflexivity.
Defined.

(** "dra" typed into the loaded dialog: one badge, "Showing 1 of 2". *)
Lemma badges_are_the_matches_witness :
  footer (st (world (searchFor (lit "dra")))) = Some (1, 2).
Proof.
  refine (proj1 (proj2 (proj2
            (badges_are_the_matches (world (searchFor (lit "dra")))
               [dramaTag] _ _)))).
  - apply world_Reachable.
  - vm_compute. reflexivity.
Defined.

(** The dialog opened again after a load: the placeholders are on screen
    and the footer still counts the records loaded before. *)
Lemma footer_counts_witness :
  render (st (world (openAndLoad ++ [OpenChange false; OpenChange true])))
    = Some (Skeleton 20) /\
  footer (st (world (openAndLoad ++ [OpenChange false; OpenChange true])))
    = Some (2, 2) /\
  (2 = length (filteredTags
                 (st (world (openAndLoad ++ [OpenChange false; OpenChange true]))))
   /\ 2 = length (tags
                    (st (world (openAndLoad ++ [OpenChange false; OpenChange true]))))
   /\ 1 <= 2 <= 2).
Proof.
  split; [vm_compute; reflexivity|]. split; [vm_compute; reflexivity|].
  refine (proj2 (footer_counts
                   (world (openAndLoad ++ [OpenChange false; OpenChange true]))
                   _ _) 2 2 _).
  - apply world_Reachable.
  - vm_compute. reflexivity.
  - vm_compute. reflexivity.
Defined.

(** ** After a selection; which diagnostic *)

Section Aftermath.
Context {caseMapping : CaseMapping}.

(** X14. A selection leaves the whole catalog visible again: the click
    clears the query, the filter effect runs on the cleared query, and
    the visible set is the catalog, which the click does not touch. The
    dialog is off the screen and no read is started. *)
Theorem selection_shows_all_again (w w' : World) (i : nat) :
  Reachable w ->
  step (ClickBadge i) w = Some w' ->
  filteredTags (st w') = tags (st w') /\
  tags (st w') = tags (st w) /\
  render (st w') = None /\
  inFlight w' = inFlight w /\
  fetches (out w') = fetches (out w).
Proof.
  intros Hr Hs. apply Reachable_Consistent in Hr.
  pose proof (step_enabled _ _ _ Hs) as He. simpl in He.
  destruct (badgeAt (st w) i) as [tag|] eqn:Eb; [|discriminate].
  rewrite (step_ClickBadge i tag w Hr Eb) in Hs. injection Hs as <-. simpl.
  rewrite fetches_app. simpl. rewrite app_nil_r.
  repeat split.
Qed.

End Aftermath.

Section Diagnostics.

(** X15. Which line a failed load writes to the console. A response with
    a status outside 200 to 299 gives "Failed to load tags" and nothing
    else, its body never being decoded; a rejected read gives "Error
    loading tags:" with the error it was rejected with; a successful
    status with a body that is not JSON gives "Error loading tags:" with
    the syntax error. In each case that line is all the loader emits when
    the read settles. *)
Theorem failure_diagnostic (o : FetchOutcome) (w : World) :
  isFailure o = true ->
  out (exec (loadTagsResume o) w) =
  out w ++
  [match o with
   | Rejected e => ConsoleError (lit "Error loading tags:") (Some e)
   | Resolved r =>
       if ok r
       then ConsoleError (lit "Error loading tags:") (Some SyntaxError)
       else ConsoleError (lit "Failed to load tags") None
   end].
Proof.
  destruct o as [e|r]; simpl; intros Hf.
  - reflexivity.
  - unfold exec, loadTagsResume, tryCatchFinally, bind, awaitFetch, json.
    simpl. destruct (ok r); simpl in *.
    + destruct (body r); [discriminate | reflexivity].
    + reflexivity.
Qed.

End Diagnostics.

(** A click on Drama, found with "dra". *)
Lemma selection_shows_all_again_witness :
  filteredTags (st (world (searchFor (lit "dra") ++ [ClickBadge 0])))
    = tags (st (world (searchFor (lit "dra") ++ [ClickBadge 0]))) /\
  tags (st (world (searchFor (lit "dra") ++ [ClickBadge 0])))
    = tags (st (world (searchFor (lit "dra")))) /\
  render (st (world (searchFor (lit "dra") ++ [ClickBadge 0]))) = None /\
  inFlight (world (searchFor (lit "dra") ++ [ClickBadge 0]))
    = inFlight (world (searchFor (lit "dra"))) /\
  fetches (out (world (searchFor (lit "dra") ++ [ClickBadge 0])))
    = fetches (out (world (searchFor (lit "dra")))).
Proof.
  apply (selection_shows_all_again
           (world (searchFor (lit "dra")))
           (world (searchFor (lit "dra") ++ [ClickBadge 0])) 0).
  - apply world_Reachable.
  - vm_compute. reflexivity.
Defined.

(** A status 404 whose body would decode: the body is not looked at. *)
Lemma failure_diagnostic_witness :
  out (exec (loadTagsResume (Resolved (mkResponse 404 (Some catalog))))
         (exec loadTagsStart mounted))
  = out (exec loadTagsStart mounted)
    ++ [ConsoleError (lit "Failed to load tags") None].
Proof.
  apply (failure_diagnostic (Resolved (mkResponse 404 (Some catalog)))
           (exec loadTagsStart mounted)).
  reflexivity.
Defined.
